(** * Kernel approximation feature maps (sklearn/kernel_approximation.py)

    A shallow embedding of [RBFSampler], [SkewedChi2Sampler] and
    [AdditiveChi2Sampler].  Floating-point numbers are idealised as real
    numbers ([R]); numpy arrays are row-major lists of rows carrying their
    shape; methods are computations in a state-and-exception monad over the
    instance ([self]).  [np.log] and [np.sqrt] are the total real functions
    [ln] and [sqrt]: where numpy returns [nan] or an infinity (the logarithm
    of a number that is not positive, an overflow) the real expression has
    no value, and the theorems are stated where it has one.  Statements
    that depend on rounding are made on the binary64 evaluation of module
    [Float64]. *)

From Stdlib Require Import String Reals List ZArith Lia Lra Bool Permutation.
From Stdlib Require Floats.SpecFloat.
Import ListNotations.
Local Open Scope string_scope.
Local Open Scope list_scope.
Local Open Scope R_scope.

(** ** Exceptions *)

Inductive exn : Type :=
| ValueError (msg : string)
| TypeError (msg : string)
| AttributeError (msg : string).

Inductive result (A : Type) : Type :=
| Ok (a : A)
| Raise (e : exn).
Arguments Ok {A} a.
Arguments Raise {A} e.

Definition rbind {A B : Type} (r : result A) (k : A -> result B) : result B :=
  match r with
  | Ok a => k a
  | Raise e => Raise e
  end.

(** ** Comparisons on reals, as booleans *)

Definition Rltb (x y : R) : bool := if Rlt_dec x y then true else false.
Definition Rleb (x y : R) : bool := if Rle_dec x y then true else false.

(** ** The fragment of numpy the module uses *)

Module Np.

Record ndarray : Type := mk_array {
  nrows : nat;
  ncols : nat;
  rows : list (list R)
}.

(** The shape fields agree with the stored rows. *)
Definition wf (A : ndarray) : Prop :=
  length (rows A) = nrows A /\
  Forall (fun r => length r = ncols A) (rows A).

Definition get (A : ndarray) (i j : nat) : R :=
  nth j (nth i (rows A) []) 0.

(** Element-wise application of a scalar function: [np.log(A)],
    [A + c], [c * A], ... *)
Definition map (f : R -> R) (A : ndarray) : ndarray :=
  {| nrows := nrows A; ncols := ncols A;
     rows := List.map (List.map f) (rows A) |}.

(** [(A ? c).any()] for an element-wise test. *)
Definition any (p : R -> bool) (A : ndarray) : bool :=
  existsb (existsb p) (rows A).

Fixpoint zip_with {A B C : Type} (f : A -> B -> C)
         (l : list A) (m : list B) : list C :=
  match l, m with
  | a :: l', b :: m' => f a b :: zip_with f l' m'
  | _, _ => []
  end.

(** Element-wise binary operation on two arrays of one shape. *)
Definition map2 (f : R -> R -> R) (A B : ndarray) : result ndarray :=
  if (nrows A =? nrows B)%nat && (ncols A =? ncols B)%nat then
    Ok {| nrows := nrows A; ncols := ncols A;
          rows := zip_with (zip_with f) (rows A) (rows B) |}
  else Raise (ValueError "operands could not be broadcast together").

(** [A + b] for a 2-D array [A] and a 1-D array [b], with numpy's
    broadcasting rule on the last axis. *)
Definition add_vec (A : ndarray) (b : list R) : result ndarray :=
  if (ncols A =? length b)%nat then
    Ok {| nrows := nrows A; ncols := ncols A;
          rows := List.map (fun r => zip_with Rplus r b) (rows A) |}
  else if (length b =? 1)%nat then
    Ok (map (fun x => x + nth 0 b 0) A)
  else if (ncols A =? 1)%nat then
    Ok {| nrows := nrows A; ncols := length b;
          rows := List.map (fun r => List.map (fun y => nth 0 r 0 + y) b)
                           (rows A) |}
  else Raise (ValueError "operands could not be broadcast together").

Definition inner (u v : list R) : R :=
  fold_right Rplus 0 (zip_with Rmult u v).

Definition column (j : nat) (W : ndarray) : list R :=
  List.map (fun r => nth j r 0) (rows W).

(** The matrix product of two dense arrays. *)
Definition matmul (A W : ndarray) : ndarray :=
  {| nrows := nrows A; ncols := ncols W;
     rows := List.map
               (fun r => List.map (fun j => inner r (column j W))
                                  (seq 0 (ncols W)))
               (rows A) |}.

(** [np.hstack]: the rows of the blocks are laid side by side, block
    after block. *)
Definition hstack (blocks : list ndarray) : result ndarray :=
  match blocks with
  | [] => Raise (ValueError "need at least one array to concatenate")
  | b :: bs =>
      if forallb (fun c => (nrows c =? nrows b)%nat) bs then
        Ok {| nrows := nrows b;
              ncols := fold_right (fun c n => (ncols c + n)%nat) 0%nat blocks;
              rows := fold_right (fun c acc => zip_with (@app R) (rows c) acc)
                                 (repeat [] (nrows b)) blocks |}
      else Raise (ValueError "all the input array dimensions except for the concatenation axis must match exactly")
  end.

(** Python 2's [xrange(lo, hi)]. *)
Definition xrange (lo hi : Z) : list Z :=
  List.map (fun k => (lo + Z.of_nat k)%Z) (seq 0 (Z.to_nat (hi - lo))).

End Np.

(** Modelled from the spec: [safe_sparse_dot] of [sklearn.utils.extmath] is
    not part of the sources at hand.  The spec describes it as the helper
    that returns the dense array equal to the mathematical product of its
    operands; operands whose inner dimensions disagree are rejected. *)
Definition safe_sparse_dot (A W : Np.ndarray) : result Np.ndarray :=
  if (Np.ncols A =? Np.nrows W)%nat then Ok (Np.matmul A W)
  else Raise (ValueError "shapes not aligned").

(** ** Methods as computations over [self] *)

Definition M (S A : Type) : Type := S -> result A * S.

Definition ret {S A : Type} (a : A) : M S A := fun s => (Ok a, s).

Definition bind {S A B : Type} (c : M S A) (k : A -> M S B) : M S B :=
  fun s =>
    match c s with
    | (Ok a, s') => k a s'
    | (Raise e, s') => (Raise e, s')
    end.

Definition raise {S A : Type} (e : exn) : M S A := fun s => (Raise e, s).
Definition self {S : Type} : M S S := fun s => (Ok s, s).
Definition assign {S : Type} (upd : S -> S) : M S unit :=
  fun s => (Ok tt, upd s).
Definition lift {S A : Type} (r : result A) : M S A := fun s => (r, s).

(** Reading an attribute that exists only once [fit] has run. *)
Definition attr {S A : Type} (name : string) (f : S -> option A) : M S A :=
  fun s =>
    match f s with
    | Some a => (Ok a, s)
    | None => (Raise (AttributeError name), s)
    end.

Declare Scope method_scope.
Delimit Scope method_scope with method.
Notation "x <- c ;; k" := (bind c (fun x => k))
  (at level 61, c at next level, right associativity) : method_scope.
Notation "c ;; k" := (bind c (fun _ => k))
  (at level 61, right associativity) : method_scope.
Local Open Scope method_scope.

(** ** The random generator

    Modelled from the spec: [check_random_state] of [sklearn.utils] and the
    generator it returns are not part of the sources at hand.  The spec
    describes the adapter as accepting a seed or an existing generator and
    returning a generator that offers normal and uniform draws arranged
    into a given shape.  A generator is a value of type [G]; every draw
    returns the drawn array together with the advanced generator. *)

Class RandomState (G : Type) : Type := {
  rs_of_seed : Z -> G;
  rs_global : G;
  normal : nat -> nat -> G -> Np.ndarray * G;
  uniform : R -> R -> nat -> G -> list R * G;
  uniform2 : R -> R -> nat -> nat -> G -> Np.ndarray * G
}.

(** The value of a [random_state] constructor argument. *)
Inductive random_state_arg (G : Type) : Type :=
| RsNone
| RsSeed (seed : Z)
| RsInstance (g : G).
Arguments RsNone {G}.
Arguments RsSeed {G} seed.
Arguments RsInstance {G} g.

Definition check_random_state {G : Type} `{RandomState G}
    (a : random_state_arg G) : G :=
  match a with
  | RsNone => rs_global
  | RsSeed seed => rs_of_seed seed
  | RsInstance g => g
  end.

(** What the spec asks of the generator: the requested shape, and uniform
    draws inside the half-open interval. *)
Class RandomStateLaws (G : Type) `{RandomState G} : Prop := {
  normal_wf : forall r c g,
    Np.wf (fst (normal r c g)) /\
    Np.nrows (fst (normal r c g)) = r /\ Np.ncols (fst (normal r c g)) = c;
  uniform_length : forall lo hi n g,
    length (fst (uniform lo hi n g)) = n;
  uniform_range : forall lo hi n g, lo < hi ->
    Forall (fun u => lo <= u < hi) (fst (uniform lo hi n g));
  uniform2_wf : forall lo hi r c g,
    Np.wf (fst (uniform2 lo hi r c g)) /\
    Np.nrows (fst (uniform2 lo hi r c g)) = r /\
    Np.ncols (fst (uniform2 lo hi r c g)) = c;
  uniform2_range : forall lo hi r c g, lo < hi ->
    Forall (Forall (fun u => lo <= u < hi))
           (Np.rows (fst (uniform2 lo hi r c g)))
}.

(** ** RBFSampler *)

Module RBFSampler.

Record t (G : Type) : Type := mk {
  gamma : R;
  n_components : nat;
  random_state : random_state_arg G;
  random_weights_ : option Np.ndarray;
  random_offset_ : option (list R)
}.
Arguments mk {G}.
Arguments gamma {G}.
Arguments n_components {G}.
Arguments random_state {G}.
Arguments random_weights_ {G}.
Arguments random_offset_ {G}.

(** [__init__(self, gamma=1., n_components=100., random_state=None)] *)
Definition init {G : Type} (gamma : R) (n_components : nat)
    (random_state : random_state_arg G) : t G :=
  mk gamma n_components random_state None None.

Definition set_random_state {G : Type} (g : G) (s : t G) : t G :=
  mk (gamma s) (n_components s) (RsInstance g)
     (random_weights_ s) (random_offset_ s).

Definition set_random_weights_ {G : Type} (W : Np.ndarray) (s : t G) : t G :=
  mk (gamma s) (n_components s) (random_state s) (Some W) (random_offset_ s).

Definition set_random_offset_ {G : Type} (b : list R) (s : t G) : t G :=
  mk (gamma s) (n_components s) (random_state s) (random_weights_ s) (Some b).

(** A call of a method of [self.random_state]: the generator held by the
    instance advances. *)
Definition draw {G A : Type} `{RandomState G} (d : G -> A * G) : M (t G) A :=
  fun s =>
    let (a, g') := d (check_random_state (random_state s)) in
    (Ok a, set_random_state g' s).

Definition fit {G : Type} `{RandomState G} (X : Np.ndarray)
    : M (t G) (t G) :=
  s <- self ;;
  assign (set_random_state (check_random_state (random_state s))) ;;
  let n_features := Np.ncols X in
  s <- self ;;
  Z <- draw (normal n_features (n_components s)) ;;
  assign (set_random_weights_ (Np.map (fun z => sqrt (gamma s) * z) Z)) ;;
  s <- self ;;
  u <- draw (uniform 0 (2 * PI) (n_components s)) ;;
  assign (set_random_offset_ u) ;;
  self.

Definition transform {G : Type} (X : Np.ndarray) : M (t G) Np.ndarray :=
  W <- attr "random_weights_" random_weights_ ;;
  projection <- lift (safe_sparse_dot X W) ;;
  s <- self ;;
  b <- attr "random_offset_" random_offset_ ;;
  shifted <- lift (Np.add_vec projection b) ;;
  ret (Np.map (fun p => sqrt 2 / sqrt (INR (n_components s)) * cos p) shifted).

End RBFSampler.

(** ** SkewedChi2Sampler *)

Module SkewedChi2Sampler.

Record t (G : Type) : Type := mk {
  skewedness : R;
  n_components : nat;
  random_state : random_state_arg G;
  random_weights_ : option Np.ndarray;
  random_offset_ : option (list R)
}.
Arguments mk {G}.
Arguments skewedness {G}.
Arguments n_components {G}.
Arguments random_state {G}.
Arguments random_weights_ {G}.
Arguments random_offset_ {G}.

(** [__init__(self, skewedness=1., n_components=100, random_state=None)] *)
Definition init {G : Type} (skewedness : R) (n_components : nat)
    (random_state : random_state_arg G) : t G :=
  mk skewedness n_components random_state None None.

Definition set_random_state {G : Type} (g : G) (s : t G) : t G :=
  mk (skewedness s) (n_components s) (RsInstance g)
     (random_weights_ s) (random_offset_ s).

Definition set_random_weights_ {G : Type} (W : Np.ndarray) (s : t G) : t G :=
  mk (skewedness s) (n_components s) (random_state s) (Some W)
     (random_offset_ s).

Definition set_random_offset_ {G : Type} (b : list R) (s : t G) : t G :=
  mk (skewedness s) (n_components s) (random_state s) (random_weights_ s)
     (Some b).

Definition draw {G A : Type} `{RandomState G} (d : G -> A * G) : M (t G) A :=
  fun s =>
    let (a, g') := d (check_random_state (random_state s)) in
    (Ok a, set_random_state g' s).

(** The inverse CDF of the sech density, [1. / np.pi * np.log(np.tan(np.pi
    / 2. * u))]. *)
Definition inverse_cdf (u : R) : R := 1 / PI * ln (tan (PI / 2 * u)).

Definition fit {G : Type} `{RandomState G} (X : Np.ndarray)
    : M (t G) (t G) :=
  s <- self ;;
  assign (set_random_state (check_random_state (random_state s))) ;;
  let n_features := Np.ncols X in
  s <- self ;;
  uniform_ <- draw (uniform2 0 1 n_features (n_components s)) ;;
  assign (set_random_weights_ (Np.map inverse_cdf uniform_)) ;;
  s <- self ;;
  u <- draw (uniform 0 (2 * PI) (n_components s)) ;;
  assign (set_random_offset_ u) ;;
  self.

Definition transform {G : Type} (X : Np.ndarray) : M (t G) Np.ndarray :=
  if Np.any (fun x => Rltb x 0) X then
    raise (ValueError "X may not contain entries smaller than zero.")
  else
    s <- self ;;
    W <- attr "random_weights_" random_weights_ ;;
    projection <-
      lift (safe_sparse_dot (Np.map (fun x => ln (x + skewedness s)) X) W) ;;
    b <- attr "random_offset_" random_offset_ ;;
    shifted <- lift (Np.add_vec projection b) ;;
    ret (Np.map (fun p => sqrt 2 / sqrt (INR (n_components s)) * cos p)
                shifted).

End SkewedChi2Sampler.

(** ** AdditiveChi2Sampler *)

Module AdditiveChi2Sampler.

Record t : Type := mk {
  sample_steps : Z;
  sample_interval : option R
}.

(** [__init__(self, sample_steps=2, sample_interval=None)] *)
Definition init (sample_steps : Z) (sample_interval : option R) : t :=
  mk sample_steps sample_interval.

Definition set_sample_interval (v : R) (s : t) : t :=
  mk (sample_steps s) (Some v).

Definition set_sample_steps (n : Z) (s : t) : t :=
  mk n (sample_interval s).

Definition fit (X : Np.ndarray) : M t t :=
  s <- self ;;
  match sample_interval s with
  | None =>
      if (sample_steps s =? 1)%Z then assign (set_sample_interval (8 / 10))
      else if (sample_steps s =? 2)%Z then assign (set_sample_interval (5 / 10))
      else if (sample_steps s =? 3)%Z then assign (set_sample_interval (4 / 10))
      else raise (ValueError "If sample_steps is not in [1, 2, 3], you needto provide sample_interval")
  | Some _ => ret tt
  end ;;
  self.

(** The body of [for j in xrange(1, self.sample_steps)]: two blocks are
    appended to [X_new] on every round. *)
Fixpoint loop (sample_interval : R) (step log_step : Np.ndarray)
    (js : list Z) (X_new : list Np.ndarray) : result (list Np.ndarray) :=
  match js with
  | [] => Ok X_new
  | j :: js' =>
      let factor :=
        Np.map (fun v => sqrt (v / cosh (PI * IZR j * sample_interval))) step in
      rbind (Np.map2 Rmult factor (Np.map (fun l => cos (IZR j * l)) log_step))
        (fun c =>
      rbind (Np.map2 Rmult factor (Np.map (fun l => sin (IZR j * l)) log_step))
        (fun s =>
      loop sample_interval step log_step js' ((X_new ++ [c]) ++ [s])))
  end.

Definition transform (X : Np.ndarray) : M t Np.ndarray :=
  if Np.any (fun x => Rleb x 0) X then
    raise (ValueError "Entries of X must be strictly positive.")
  else
    s <- self ;;
    match sample_interval s with
    | None => raise (TypeError "unsupported operand type(s) for *")
    | Some si =>
        let X_new := [Np.map (fun x => sqrt (x * si / cosh 0)) X] in
        let log_step := Np.map (fun x => si * ln x) X in
        let step := Np.map (fun x => 2 * x * si) X in
        X_new <- lift (loop si step log_step (Np.xrange 1 (sample_steps s)) X_new) ;;
        lift (Np.hstack X_new)
    end.

End AdditiveChi2Sampler.

(** ** Reference formulas of the additive map *)

Module Chi2Spec.

(** The zeroth component of a feature value. *)
Definition zeroth (si x : R) : R := sqrt (x * si).

Definition step_j (si : R) (j : Z) (x : R) : R :=
  2 * x * si / cosh (PI * IZR j * si).

Definition cos_component (si : R) (j : Z) (x : R) : R :=
  sqrt (step_j si j x) * cos (IZR j * si * ln x).

Definition sin_component (si : R) (j : Z) (x : R) : R :=
  sqrt (step_j si j x) * sin (IZR j * si * ln x).

(** The expansion of one feature value: the zeroth component, then a
    cosine and a sine component per step. *)
Definition expand (si : R) (sample_steps : Z) (x : R) : list R :=
  zeroth si x ::
  flat_map (fun j => [cos_component si j x; sin_component si j x])
           (Np.xrange 1 sample_steps).

(** The per-feature expansions laid one after another, in feature order. *)
Definition feature_major_row (si : R) (sample_steps : Z) (row : list R)
    : list R :=
  flat_map (expand si sample_steps) row.

(** The zeroth components of all features, then for every step the cosine
    components of all features followed by their sine components. *)
Definition component_major_row (si : R) (sample_steps : Z) (row : list R)
    : list R :=
  List.map (zeroth si) row ++
  flat_map (fun j => List.map (cos_component si j) row ++
                     List.map (sin_component si j) row)
           (Np.xrange 1 sample_steps).

End Chi2Spec.

(** The blocks of the additive map as the code computes them, one function
    per block. *)
Module Chi2Code.
Definition code_zeroth (si x : R) : R := sqrt (x * si / cosh 0).
Definition code_cos (si : R) (j : Z) (x : R) : R :=
  sqrt (2 * x * si / cosh (PI * IZR j * si)) * cos (IZR j * (si * ln x)).
Definition code_sin (si : R) (j : Z) (x : R) : R :=
  sqrt (2 * x * si / cosh (PI * IZR j * si)) * sin (IZR j * (si * ln x)).
Definition code_blocks (si : R) (js : list Z) : list (R -> R) :=
  flat_map (fun j => [code_cos si j; code_sin si j]) js.

End Chi2Code.

(** Later [fit] calls on one instance, each after [sample_steps] has been
    set to a new value. *)
Fixpoint fit_again (calls : list (Z * Np.ndarray)) (s : AdditiveChi2Sampler.t)
    : result AdditiveChi2Sampler.t * AdditiveChi2Sampler.t :=
  match calls with
  | [] => (Ok s, s)
  | (n, X) :: rest =>
      match AdditiveChi2Sampler.fit X (AdditiveChi2Sampler.set_sample_steps n s) with
      | (Ok _, s') => fit_again rest s'
      | (Raise e, s') => (Raise e, s')
      end
  end.

(** Finite sums, [rsum n f = f 0 + ... + f (n - 1)]. *)
Fixpoint rsum (n : nat) (f : nat -> R) : R :=
  match n with
  | O => 0
  | S k => rsum k f + f k
  end.

(** A generator for examples: its state is a counter, every normal draw is
    the counter's value and every uniform draw the midpoint of the
    interval. *)
Definition const_array (r c : nat) (v : R) : Np.ndarray :=
  Np.mk_array r c (repeat (repeat v c) r).

#[export] Instance counter_rng : RandomState nat := {
  rs_of_seed := Z.to_nat;
  rs_global := 0%nat;
  normal := fun r c g => (const_array r c (INR g), (g + r * c)%nat);
  uniform := fun lo hi n g => (repeat ((lo + hi) / 2) n, (g + n)%nat);
  uniform2 := fun lo hi r c g =>
    (const_array r c ((lo + hi) / 2), (g + r * c)%nat)
}.

(** Arrays used in examples. *)
Definition X_1_2 : Np.ndarray := Np.mk_array 1 2 [[1; 2]].
Definition X_neg : Np.ndarray := Np.mk_array 1 2 [[1; -1]].
Definition X_zero : Np.ndarray := Np.mk_array 1 2 [[1; 0]].
Definition X_1_1 : Np.ndarray := Np.mk_array 1 1 [[1]].

(** A generator that obeys the contract of [RandomStateLaws] and returns
    the lower end of the interval at every uniform draw. *)
Definition low_rng : RandomState nat := {|
  rs_of_seed := Z.to_nat;
  rs_global := 0%nat;
  normal := fun r c g => (const_array r c 0, (g + r * c)%nat);
  uniform := fun lo hi n g => (repeat lo n, (g + n)%nat);
  uniform2 := fun lo hi r c g => (const_array r c lo, (g + r * c)%nat)
|}.

(** ** The output scale in binary64

    [np.sqrt(2.) / np.sqrt(self.n_components) * np.cos(...)] as numpy
    evaluates it: every operation is the IEEE 754 binary64 one, rounding to
    nearest even.  The value of the cosine is taken as given. *)

Module Float64.

Definition prec : Z := 53.
Definition emax : Z := 1024.

(** The binary64 number nearest to an integer. *)
Definition of_Z (z : Z) : SpecFloat.spec_float :=
  SpecFloat.binary_normalize prec emax z 0 false.

Definition fsqrt (x : SpecFloat.spec_float) : SpecFloat.spec_float :=
  SpecFloat.SFsqrt prec emax x.
Definition fdiv (x y : SpecFloat.spec_float) : SpecFloat.spec_float :=
  SpecFloat.SFdiv prec emax x y.
Definition fmul (x y : SpecFloat.spec_float) : SpecFloat.spec_float :=
  SpecFloat.SFmul prec emax x y.

Definition scaled_cos (n_components : nat) (cos_value : SpecFloat.spec_float)
    : SpecFloat.spec_float :=
  fmul (fdiv (fsqrt (of_Z 2)) (fsqrt (of_Z (Z.of_nat n_components))))
       cos_value.


End Float64.

(** A fitted Monte Carlo map holds a weight matrix of shape
    [(n_features, n_components)] and [n_components] offsets. *)
Definition fitted_shape (n_features n_components : nat)
    (W : Np.ndarray) (b : list R) : Prop :=
  Np.wf W /\ Np.nrows W = n_features /\ Np.ncols W = n_components /\
  length b = n_components.

Definition rbf_fitted {G : Type} (s : RBFSampler.t G) (n_features : nat)
    (W : Np.ndarray) (b : list R) : Prop :=
  RBFSampler.random_weights_ s = Some W /\
  RBFSampler.random_offset_ s = Some b /\
  fitted_shape n_features (RBFSampler.n_components s) W b.

Definition skewed_fitted {G : Type} (s : SkewedChi2Sampler.t G)
    (n_features : nat) (W : Np.ndarray) (b : list R) : Prop :=
  SkewedChi2Sampler.random_weights_ s = Some W /\
  SkewedChi2Sampler.random_offset_ s = Some b /\
  fitted_shape n_features (SkewedChi2Sampler.n_components s) W b.

(** The scaled cosine both Monte Carlo maps end with. *)
Definition scaled_cos (n_components : nat) (p : R) : R :=
  sqrt 2 / sqrt (INR n_components) * cos p.

(** Fitted instances used in examples. *)
Definition W_2_2 : Np.ndarray := Np.mk_array 2 2 [[1; 0]; [0; 1]].
Definition rbf_example : RBFSampler.t nat :=
  RBFSampler.mk 1 2 RsNone (Some W_2_2) (Some [0; 0]).
Definition skewed_example : SkewedChi2Sampler.t nat :=
  SkewedChi2Sampler.mk 1 2 RsNone (Some W_2_2) (Some [0; 0]).

(** The sum of a list of reals. *)
Definition rlist_sum (l : list R) : R := fold_right Rplus 0 l.

(** The value the additive map assigns to a pair of feature values: the
    kernel's spectrum sampled at the steps [j = 0 .. sample_steps - 1]. *)
Definition sampled_chi2_kernel (si : R) (sample_steps : Z) (x y : R) : R :=
  si * sqrt (x * y) *
  (1 + 2 * rlist_sum
             (List.map (fun j => cos (IZR j * si * (ln x - ln y)) /
                                 cosh (PI * IZR j * si))
                       (Np.xrange 1 sample_steps))).

(** Two arrays of one width, the rows of the second below those of the
    first. *)
Definition stack_rows (A B : Np.ndarray) : Np.ndarray :=
  Np.mk_array (Np.nrows A + Np.nrows B) (Np.ncols A) (Np.rows A ++ Np.rows B).

Definition Y_1_2 : Np.ndarray := Np.mk_array 1 2 [[3; 4]].

(** The total weight of the sampled spectrum,
    [1 + 2 * sum_j sech (pi * j * sample_interval)]. *)
Definition spectrum_mass (si : R) (sample_steps : Z) : R :=
  1 + 2 * rlist_sum
            (List.map (fun j => 1 / cosh (PI * IZR j * si))
                      (Np.xrange 1 sample_steps)).

(** ** Properties of the numpy fragment *)

Lemma Rleb_true (x y : R) : Rleb x y = true <-> x <= y.
Proof.
  unfold Rleb. destruct (Rle_dec x y); split; intros; try easy.
Qed.

Lemma Rltb_true (x y : R) : Rltb x y = true <-> x < y.
Proof.
  unfold Rltb. destruct (Rlt_dec x y); split; intros; try easy.
Qed.

Lemma any_true (p : R -> bool) (A : Np.ndarray) :
  Np.any p A = true <->
  exists row x, In row (Np.rows A) /\ In x row /\ p x = true.
Proof.
  unfold Np.any. rewrite existsb_exists. split.
  - intros (row & Hrow & Hex). apply existsb_exists in Hex.
    destruct Hex as (x & Hx & Hp). now exists row, x.
  - intros (row & x & Hrow & Hx & Hp). exists row. split; [easy|].
    apply existsb_exists. now exists x.
Qed.

Lemma zip_with_map {A B C D : Type} (h : B -> C -> D) (f : A -> B)
    (g : A -> C) (l : list A) :
  Np.zip_with h (List.map f l) (List.map g l) = List.map (fun x => h (f x) (g x)) l.
Proof.
  induction l as [|a l IH]; simpl; [reflexivity|]. now rewrite IH.
Qed.

Lemma map_map_fuse (f g : R -> R) (A : Np.ndarray) :
  Np.map f (Np.map g A) = Np.map (fun x => f (g x)) A.
Proof.
  unfold Np.map; simpl. f_equal.
  rewrite List.map_map. apply List.map_ext. intros r. apply List.map_map.
Qed.

Lemma map2_map (h : R -> R -> R) (f g : R -> R) (A : Np.ndarray) :
  Np.map2 h (Np.map f A) (Np.map g A) = Ok (Np.map (fun x => h (f x) (g x)) A).
Proof.
  unfold Np.map2; simpl. rewrite !Nat.eqb_refl; simpl.
  unfold Np.map. do 2 f_equal.
  rewrite zip_with_map. apply List.map_ext. intros r. apply zip_with_map.
Qed.

Lemma map_ext_in_array (f g : R -> R) (A : Np.ndarray) :
  (forall row x, In row (Np.rows A) -> In x row -> f x = g x) ->
  Np.map f A = Np.map g A.
Proof.
  intros H. unfold Np.map. f_equal.
  apply List.map_ext_in. intros row Hrow.
  apply List.map_ext_in. intros x Hx. now apply (H row).
Qed.

Lemma repeat_as_map {A B : Type} (b : B) (l : list A) (n : nat) :
  length l = n -> repeat b n = List.map (fun _ => b) l.
Proof.
  intros <-. induction l as [|a l IH]; simpl; [reflexivity|]. now rewrite IH.
Qed.

Lemma hstack_rows_of_maps (fs : list (R -> R)) (X : Np.ndarray) :
  length (Np.rows X) = Np.nrows X ->
  fold_right (fun c acc => Np.zip_with (@app R) (Np.rows c) acc)
             (repeat [] (Np.nrows X))
             (List.map (fun f => Np.map f X) fs)
  = List.map (fun r => flat_map (fun f => List.map f r) fs) (Np.rows X).
Proof.
  intros Hlen. induction fs as [|f fs IH]; simpl.
  - now apply repeat_as_map.
  - rewrite IH. apply zip_with_map.
Qed.

Lemma hstack_ncols_of_maps (fs : list (R -> R)) (X : Np.ndarray) :
  fold_right (fun c n => (Np.ncols c + n)%nat) 0%nat
             (List.map (fun f => Np.map f X) fs)
  = (Np.ncols X * length fs)%nat.
Proof.
  induction fs as [|f fs IH]; simpl; [lia|]. rewrite IH. lia.
Qed.

Lemma hstack_of_maps (f : R -> R) (fs : list (R -> R)) (X : Np.ndarray) :
  length (Np.rows X) = Np.nrows X ->
  Np.hstack (List.map (fun h => Np.map h X) (f :: fs))
  = Ok (Np.mk_array (Np.nrows X) (Np.ncols X * length (f :: fs))
          (List.map (fun r => flat_map (fun h => List.map h r) (f :: fs))
                    (Np.rows X))).
Proof.
  intros Hlen.
  assert (Hall : forallb (fun c => (Np.nrows c =? Np.nrows (Np.map f X))%nat)
                   (List.map (fun h => Np.map h X) fs) = true).
  { apply forallb_forall. intros c Hc.
    apply in_map_iff in Hc. destruct Hc as (h & <- & _).
    simpl. apply Nat.eqb_refl. }
  cbn [List.map Np.hstack]. rewrite Hall.
  change (Np.map f X :: List.map (fun h => Np.map h X) fs)
    with (List.map (fun h => Np.map h X) (f :: fs)).
  rewrite hstack_ncols_of_maps.
  change (Np.nrows (Np.map f X)) with (Np.nrows X).
  now rewrite hstack_rows_of_maps.
Qed.

Lemma xrange_length (lo hi : Z) :
  length (Np.xrange lo hi) = Z.to_nat (hi - lo).
Proof. unfold Np.xrange. now rewrite length_map, length_seq. Qed.

Lemma xrange_empty (lo hi : Z) : (hi <= lo)%Z -> Np.xrange lo hi = [].
Proof.
  intros H. unfold Np.xrange.
  replace (Z.to_nat (hi - lo)) with 0%nat by lia. reflexivity.
Qed.

(** ** Properties of AdditiveChi2Sampler *)

Module AdditiveChi2Facts.
Import AdditiveChi2Sampler Chi2Code.

Lemma loop_blocks (si : R) (X : Np.ndarray) (js : list Z)
    (acc : list Np.ndarray) :
  loop si (Np.map (fun x => 2 * x * si) X) (Np.map (fun x => si * ln x) X)
       js acc
  = Ok (acc ++ List.map (fun h => Np.map h X) (code_blocks si js)).
Proof.
  revert acc. induction js as [|j js IH]; intros acc; simpl.
  - now rewrite app_nil_r.
  - rewrite !map_map_fuse, !map2_map. simpl. rewrite IH.
    rewrite <- !app_assoc. reflexivity.
Qed.

Lemma code_zeroth_spec (si x : R) : code_zeroth si x = Chi2Spec.zeroth si x.
Proof.
  unfold code_zeroth, Chi2Spec.zeroth. rewrite cosh_0. f_equal. field.
Qed.

Lemma code_cos_spec (si : R) (j : Z) (x : R) :
  code_cos si j x = Chi2Spec.cos_component si j x.
Proof.
  unfold code_cos, Chi2Spec.cos_component, Chi2Spec.step_j.
  f_equal. f_equal. ring.
Qed.

Lemma code_sin_spec (si : R) (j : Z) (x : R) :
  code_sin si j x = Chi2Spec.sin_component si j x.
Proof.
  unfold code_sin, Chi2Spec.sin_component, Chi2Spec.step_j.
  f_equal. f_equal. ring.
Qed.

Lemma blocks_row (si : R) (js : list Z) (r : list R) :
  flat_map (fun h => List.map h r) (code_blocks si js)
  = flat_map (fun j => List.map (Chi2Spec.cos_component si j) r ++
                       List.map (Chi2Spec.sin_component si j) r) js.
Proof.
  induction js as [|j js IH]; simpl; [reflexivity|].
  rewrite IH, <- app_assoc. f_equal; [|f_equal].
  - apply List.map_ext. intros. apply code_cos_spec.
  - apply List.map_ext. intros. apply code_sin_spec.
Qed.

Lemma code_row (si : R) (steps : Z) (r : list R) :
  flat_map (fun h => List.map h r)
           (code_zeroth si :: code_blocks si (Np.xrange 1 steps))
  = Chi2Spec.component_major_row si steps r.
Proof.
  unfold Chi2Spec.component_major_row. simpl. rewrite blocks_row. f_equal.
  apply List.map_ext. intros. apply code_zeroth_spec.
Qed.

Lemma code_blocks_length (si : R) (js : list Z) :
  length (code_blocks si js) = (2 * length js)%nat.
Proof.
  induction js as [|j js IH]; simpl; [reflexivity|]. rewrite IH. lia.
Qed.

(** Once the validity scan has passed, [transform] is the horizontal
    stacking of the element-wise images of [X]. *)
Lemma transform_scan_passed (s : t) (X : Np.ndarray) (si : R) :
  Np.any (fun x => Rleb x 0) X = false ->
  sample_interval s = Some si ->
  transform X s
  = (Np.hstack (List.map (fun h => Np.map h X)
                  (code_zeroth si :: code_blocks si (Np.xrange 1 (sample_steps s)))),
     s).
Proof.
  intros Hscan Hsi. unfold transform. rewrite Hscan.
  unfold bind, self, lift. rewrite Hsi. rewrite loop_blocks. reflexivity.
Qed.

Lemma transform_scan_failed (s : t) (X : Np.ndarray) :
  Np.any (fun x => Rleb x 0) X = true ->
  transform X s
  = (Raise (ValueError "Entries of X must be strictly positive."), s).
Proof. intros Hscan. unfold transform. now rewrite Hscan. Qed.

Lemma positive_scan (X : Np.ndarray) :
  Forall (Forall (fun x => 0 < x)) (Np.rows X) ->
  Np.any (fun x => Rleb x 0) X = false.
Proof.
  intros Hpos. destruct (Np.any _ X) eqn:E; [|reflexivity].
  apply any_true in E. destruct E as (row & x & Hrow & Hx & Hle).
  apply Rleb_true in Hle.
  rewrite Forall_forall in Hpos. specialize (Hpos row Hrow).
  rewrite Forall_forall in Hpos. specialize (Hpos x Hx). lra.
Qed.

End AdditiveChi2Facts.

Lemma cosh_positive (x : R) : 0 < cosh x.
Proof.
  unfold cosh. pose proof (exp_pos x). pose proof (exp_pos (- x)). lra.
Qed.

Lemma flat_map_nil {A B : Type} (l : list A) :
  flat_map (fun _ : A => @nil B) l = [].
Proof. induction l; simpl; auto. Qed.

Lemma flat_map_app_perm {A B : Type} (f g h : A -> list B) (l : list A) :
  (forall a, Permutation (h a) (f a ++ g a)) ->
  Permutation (flat_map h l) (flat_map f l ++ flat_map g l).
Proof.
  intros Hh. induction l as [|a l IH]; simpl; [constructor|].
  rewrite (Hh a), IH, <- !app_assoc.
  apply Permutation_app_head.
  rewrite !app_assoc. apply Permutation_app_tail. apply Permutation_app_comm.
Qed.

Lemma interleave_perm {J A B : Type} (f0 : A -> B) (c s : J -> A -> B)
    (js : list J) (r : list A) :
  Permutation
    (List.map f0 r ++
     flat_map (fun j => List.map (c j) r ++ List.map (s j) r) js)
    (flat_map (fun x => f0 x :: flat_map (fun j => [c j x; s j x]) js) r).
Proof.
  induction r as [|x r IH].
  - simpl. now rewrite flat_map_nil.
  - cbn [List.map flat_map app]. apply perm_skip.
    etransitivity; [|apply Permutation_app_head, IH].
    etransitivity.
    + apply Permutation_app_head.
      apply (flat_map_app_perm
               (fun j => [c j x; s j x])
               (fun j => List.map (c j) r ++ List.map (s j) r)).
      intros j. cbn [List.map app]. apply perm_skip.
      symmetry. apply Permutation_middle.
    + rewrite !app_assoc. apply Permutation_app_tail.
      apply Permutation_app_comm.
Qed.

(** The component-major row holds the same values as the feature-major
    row, in another order. *)
Lemma component_major_perm (si : R) (steps : Z) (r : list R) :
  Permutation (Chi2Spec.component_major_row si steps r)
              (Chi2Spec.feature_major_row si steps r).
Proof.
  unfold Chi2Spec.component_major_row, Chi2Spec.feature_major_row.
  exact (interleave_perm (Chi2Spec.zeroth si) (Chi2Spec.cos_component si)
           (Chi2Spec.sin_component si) (Np.xrange 1 steps) r).
Qed.

Lemma additive_transform_value (s : AdditiveChi2Sampler.t) (X : Np.ndarray)
    (si : R) :
  length (Np.rows X) = Np.nrows X ->
  Np.any (fun x => Rleb x 0) X = false ->
  AdditiveChi2Sampler.sample_interval s = Some si ->
  AdditiveChi2Sampler.transform X s
  = (Ok (Np.mk_array (Np.nrows X)
           (Np.ncols X *
            (1 + 2 * Z.to_nat (AdditiveChi2Sampler.sample_steps s - 1)))
           (List.map
              (Chi2Spec.component_major_row si
                 (AdditiveChi2Sampler.sample_steps s))
              (Np.rows X))),
     s).
Proof.
  intros Hlen Hscan Hsi.
  rewrite (AdditiveChi2Facts.transform_scan_passed s X si Hscan Hsi).
  rewrite hstack_of_maps by exact Hlen.
  f_equal. f_equal. f_equal.
  - cbn [length]. rewrite AdditiveChi2Facts.code_blocks_length, xrange_length.
    reflexivity.
  - apply List.map_ext. intros r. apply AdditiveChi2Facts.code_row.
Qed.

Lemma component_major_length (si : R) (steps : Z) (r : list R) :
  length (Chi2Spec.component_major_row si steps r)
  = (length r * (1 + 2 * Z.to_nat (steps - 1)))%nat.
Proof.
  unfold Chi2Spec.component_major_row.
  rewrite length_app, length_map, <- xrange_length.
  induction (Np.xrange 1 steps) as [|j js IH]; simpl; [lia|].
  rewrite !length_app, !length_map. lia.
Qed.

Lemma xrange_1_2 : Np.xrange 1 2 = [1%Z].
Proof. reflexivity. Qed.

Lemma X_1_2_positive : Forall (Forall (fun x => 0 < x)) (Np.rows X_1_2).
Proof. repeat constructor; lra. Qed.

Lemma X_1_2_wf : Np.wf X_1_2.
Proof. split; [reflexivity|]. repeat constructor. Qed.

(** C2 (as stated, refuted): with two features and two sampling steps the
    output row of [transform] is not the concatenation of the per-feature
    expansions in feature order. *)
Lemma additive_transform_not_feature_major :
  ~ (exists out,
        fst (AdditiveChi2Sampler.transform X_1_2
               (AdditiveChi2Sampler.mk 2 (Some (5 / 10)))) = Ok out /\
        Np.rows out
        = List.map (Chi2Spec.feature_major_row (5 / 10) 2) (Np.rows X_1_2)).
Proof.
  intros (out & Hout & Hrows).
  rewrite (additive_transform_value _ X_1_2 (5 / 10)) in Hout;
    [| reflexivity | apply AdditiveChi2Facts.positive_scan, X_1_2_positive | reflexivity ].
  - cbn [fst] in Hout. injection Hout as <-.
    cbn [Np.rows X_1_2 List.map AdditiveChi2Sampler.sample_steps] in Hrows.
    unfold Chi2Spec.component_major_row, Chi2Spec.feature_major_row,
      Chi2Spec.expand in Hrows.
    rewrite xrange_1_2 in Hrows. cbn [List.map flat_map app] in Hrows.
    assert (H3 := f_equal (fun l => nth 2 (nth 0 l []) 0) Hrows).
    cbn [nth] in H3.
    unfold Chi2Spec.cos_component, Chi2Spec.sin_component in H3.
    replace (1 * (5 / 10) * ln 1) with 0 in H3 by (rewrite ln_1; ring).
    rewrite cos_0, sin_0, Rmult_1_r, Rmult_0_r in H3.
    apply sqrt_eq_0 in H3.
    + unfold Chi2Spec.step_j in H3.
      pose proof (cosh_positive (PI * 1 * (5 / 10))) as Hc.
      assert (0 < 2 * 1 * (5 / 10) / cosh (PI * 1 * (5 / 10))).
      { apply Rdiv_lt_0_compat; lra. }
      lra.
    + unfold Chi2Spec.step_j.
      pose proof (cosh_positive (PI * 1 * (5 / 10))) as Hc.
      apply Rlt_le, Rdiv_lt_0_compat; lra.
Qed.

Lemma Forall2_map_self {A B : Type} (P : A -> B -> Prop) (f : A -> B)
    (l : list A) :
  (forall a, P a (f a)) -> Forall2 P l (List.map f l).
Proof. intros H. induction l; simpl; constructor; auto. Qed.

Lemma component_major_one_step (si : R) (steps : Z) (r : list R) :
  steps = 1%Z ->
  Chi2Spec.component_major_row si steps r
  = List.map (fun x => sqrt (x * si)) r.
Proof.
  intros ->. unfold Chi2Spec.component_major_row.
  rewrite xrange_empty by lia. simpl. now rewrite app_nil_r.
Qed.

(** C2 (amended): on a strictly positive input with [n] features and with
    [sample_interval] set, [transform] returns, for every input row, the
    zeroth components [sqrt (x * sample_interval)] of all features in input
    order, followed for each step [j = 1 .. sample_steps - 1] by the cosine
    components of all features and then the sine components of all
    features; the row is a rearrangement of the concatenated per-feature
    expansions and has [n * (2 * sample_steps - 1)] columns.  With
    [sample_steps = 1] every entry is [sqrt (x * sample_interval)], and on
    [[1.0, 2.0]] with interval 0.8 the result is the 1x2 array of those
    values. *)
Theorem additive_transform_component_major :
  (forall (s : AdditiveChi2Sampler.t) (X : Np.ndarray) (si : R),
      Np.wf X ->
      Forall (Forall (fun x => 0 < x)) (Np.rows X) ->
      AdditiveChi2Sampler.sample_interval s = Some si ->
      (1 <= AdditiveChi2Sampler.sample_steps s)%Z ->
      exists out,
        AdditiveChi2Sampler.transform X s = (Ok out, s) /\
        Np.wf out /\
        Np.nrows out = Np.nrows X /\
        Z.of_nat (Np.ncols out)
        = (Z.of_nat (Np.ncols X) *
           (2 * AdditiveChi2Sampler.sample_steps s - 1))%Z /\
        Np.rows out
        = List.map (Chi2Spec.component_major_row si
                      (AdditiveChi2Sampler.sample_steps s)) (Np.rows X) /\
        Forall2 (fun r o =>
                   Permutation o
                     (Chi2Spec.feature_major_row si
                        (AdditiveChi2Sampler.sample_steps s) r))
                (Np.rows X) (Np.rows out) /\
        (AdditiveChi2Sampler.sample_steps s = 1%Z ->
         Np.rows out
         = List.map (List.map (fun x => sqrt (x * si))) (Np.rows X))) /\
  AdditiveChi2Sampler.transform X_1_2
    (AdditiveChi2Sampler.mk 1 (Some (8 / 10)))
  = (Ok (Np.mk_array 1 2 [[sqrt (1 * (8 / 10)); sqrt (2 * (8 / 10))]]),
     AdditiveChi2Sampler.mk 1 (Some (8 / 10))).
Proof.
  split.
  - intros s X si [Hlen Hcols] Hpos Hsi Hsteps.
    eexists. split; [|split; [|split; [|split; [|split; [|split]]]]].
    + apply additive_transform_value;
        [exact Hlen | now apply AdditiveChi2Facts.positive_scan | exact Hsi].
    + split; cbn [Np.rows Np.nrows Np.ncols].
      * now rewrite length_map.
      * apply Forall_forall. intros o Ho. apply in_map_iff in Ho.
        destruct Ho as (r & <- & Hr).
        rewrite component_major_length.
        rewrite Forall_forall in Hcols. now rewrite (Hcols r Hr).
    + reflexivity.
    + cbn [Np.ncols]. rewrite Nat2Z.inj_mul. f_equal. lia.
    + reflexivity.
    + cbn [Np.rows]. apply Forall2_map_self.
      intros r. apply component_major_perm.
    + intros H1. cbn [Np.rows]. apply List.map_ext.
      intros r. now apply component_major_one_step.
  - rewrite (additive_transform_value _ X_1_2 (8 / 10));
      [| reflexivity
       | apply AdditiveChi2Facts.positive_scan, X_1_2_positive
       | reflexivity ].
    reflexivity.
Qed.

Lemma additive_transform_component_major_witness :
  exists out,
    AdditiveChi2Sampler.transform X_1_2
      (AdditiveChi2Sampler.mk 2 (Some (5 / 10)))
    = (Ok out, AdditiveChi2Sampler.mk 2 (Some (5 / 10))) /\
    Np.ncols out = 6%nat /\
    Np.rows out = [Chi2Spec.component_major_row (5 / 10) 2 [1; 2]].
Proof.
  destruct (proj1 additive_transform_component_major
              (AdditiveChi2Sampler.mk 2 (Some (5 / 10))) X_1_2 (5 / 10)
              X_1_2_wf X_1_2_positive eq_refl)
    as (out & Hrun & _ & _ & Hc & Hr & _).
  - simpl. lia.
  - exists out. split; [exact Hrun|]. split; [|exact Hr].
    simpl in Hc. lia.
Defined.

Lemma additive_fit_unset (X : Np.ndarray) (n : Z) :
  AdditiveChi2Sampler.fit X (AdditiveChi2Sampler.mk n None)
  = if (n =? 1)%Z then
      (Ok (AdditiveChi2Sampler.mk n (Some (8 / 10))),
       AdditiveChi2Sampler.mk n (Some (8 / 10)))
    else if (n =? 2)%Z then
      (Ok (AdditiveChi2Sampler.mk n (Some (5 / 10))),
       AdditiveChi2Sampler.mk n (Some (5 / 10)))
    else if (n =? 3)%Z then
      (Ok (AdditiveChi2Sampler.mk n (Some (4 / 10))),
       AdditiveChi2Sampler.mk n (Some (4 / 10)))
    else
      (Raise (ValueError "If sample_steps is not in [1, 2, 3], you needto provide sample_interval"),
       AdditiveChi2Sampler.mk n None).
Proof.
  unfold AdditiveChi2Sampler.fit, bind, self.
  cbn [AdditiveChi2Sampler.sample_interval AdditiveChi2Sampler.sample_steps].
  destruct (n =? 1)%Z; [reflexivity|].
  destruct (n =? 2)%Z; [reflexivity|].
  destruct (n =? 3)%Z; reflexivity.
Qed.

Lemma additive_fit_set (X : Np.ndarray) (s : AdditiveChi2Sampler.t) (v : R) :
  AdditiveChi2Sampler.sample_interval s = Some v ->
  AdditiveChi2Sampler.fit X s = (Ok s, s).
Proof.
  intros Hv. unfold AdditiveChi2Sampler.fit, bind, self. now rewrite Hv.
Qed.

(** C6: with [sample_interval] unset, [fit] derives 0.8, 0.5 and 0.4 for
    1, 2 and 3 sampling steps and raises the configuration error for every
    other [sample_steps], leaving the instance as it was; with
    [sample_interval] set, [fit] succeeds for every [sample_steps] and
    leaves the instance untouched; the outcome never depends on [X].  In
    particular four steps with interval 0.3 succeed and keep 0.3, and four
    steps with no interval fail. *)
Theorem additive_fit_derives_interval :
  (forall X,
      AdditiveChi2Sampler.fit X (AdditiveChi2Sampler.mk 1 None)
      = (Ok (AdditiveChi2Sampler.mk 1 (Some (8 / 10))),
         AdditiveChi2Sampler.mk 1 (Some (8 / 10)))) /\
  (forall X,
      AdditiveChi2Sampler.fit X (AdditiveChi2Sampler.mk 2 None)
      = (Ok (AdditiveChi2Sampler.mk 2 (Some (5 / 10))),
         AdditiveChi2Sampler.mk 2 (Some (5 / 10)))) /\
  (forall X,
      AdditiveChi2Sampler.fit X (AdditiveChi2Sampler.mk 3 None)
      = (Ok (AdditiveChi2Sampler.mk 3 (Some (4 / 10))),
         AdditiveChi2Sampler.mk 3 (Some (4 / 10)))) /\
  (forall X n,
      n <> 1%Z -> n <> 2%Z -> n <> 3%Z ->
      AdditiveChi2Sampler.fit X (AdditiveChi2Sampler.mk n None)
      = (Raise (ValueError "If sample_steps is not in [1, 2, 3], you needto provide sample_interval"),
         AdditiveChi2Sampler.mk n None)) /\
  (forall X n v,
      AdditiveChi2Sampler.fit X (AdditiveChi2Sampler.mk n (Some v))
      = (Ok (AdditiveChi2Sampler.mk n (Some v)),
         AdditiveChi2Sampler.mk n (Some v))) /\
  (forall X X' s,
      AdditiveChi2Sampler.fit X s = AdditiveChi2Sampler.fit X' s) /\
  (forall X,
      AdditiveChi2Sampler.fit X (AdditiveChi2Sampler.mk 4 (Some (3 / 10)))
      = (Ok (AdditiveChi2Sampler.mk 4 (Some (3 / 10))),
         AdditiveChi2Sampler.mk 4 (Some (3 / 10)))) /\
  (forall X,
      AdditiveChi2Sampler.fit X (AdditiveChi2Sampler.mk 4 None)
      = (Raise (ValueError "If sample_steps is not in [1, 2, 3], you needto provide sample_interval"),
         AdditiveChi2Sampler.mk 4 None)).
Proof.
  split; [|split; [|split; [|split; [|split; [|split; [|split]]]]]]; intros.
  - now rewrite additive_fit_unset.
  - now rewrite additive_fit_unset.
  - now rewrite additive_fit_unset.
  - rewrite additive_fit_unset.
    destruct (Z.eqb_spec n 1); [contradiction|].
    destruct (Z.eqb_spec n 2); [contradiction|].
    destruct (Z.eqb_spec n 3); [contradiction|]. reflexivity.
  - now apply (additive_fit_set X _ v).
  - reflexivity.
  - now apply (additive_fit_set X _ (3 / 10)).
  - now rewrite additive_fit_unset.
Qed.

Lemma additive_fit_derives_interval_witness :
  AdditiveChi2Sampler.fit X_1_2 (AdditiveChi2Sampler.mk 7 None)
  = (Raise (ValueError "If sample_steps is not in [1, 2, 3], you needto provide sample_interval"),
     AdditiveChi2Sampler.mk 7 None).
Proof.
  apply (proj1 (proj2 (proj2 (proj2 additive_fit_derives_interval))));
    discriminate.
Defined.

Lemma fit_again_keeps_interval (v : R) (calls : list (Z * Np.ndarray)) :
  forall s,
    AdditiveChi2Sampler.sample_interval s = Some v ->
    exists s2,
      fit_again calls s = (Ok s2, s2) /\
      AdditiveChi2Sampler.sample_interval s2 = Some v.
Proof.
  induction calls as [|[n X] rest IH]; intros s Hv.
  - exists s. now split.
  - cbn [fit_again].
    rewrite (additive_fit_set X (AdditiveChi2Sampler.set_sample_steps n s) v)
      by exact Hv.
    apply IH. exact Hv.
Qed.

(** C10: when [fit] derives [sample_interval] it stores the value in the
    instance's own [sample_interval] attribute; after one successful
    [fit] on an instance built with the interval unset, every later [fit]
    on that instance succeeds and keeps the stored interval, whatever
    [sample_steps] has been changed to in between. *)
Theorem additive_fit_sticky_interval
    (s s1 : AdditiveChi2Sampler.t) (X : Np.ndarray) :
  AdditiveChi2Sampler.sample_interval s = None ->
  fst (AdditiveChi2Sampler.fit X s) = Ok s1 ->
  exists v,
    snd (AdditiveChi2Sampler.fit X s) = s1 /\
    AdditiveChi2Sampler.sample_interval s1 = Some v /\
    AdditiveChi2Sampler.sample_steps s1 = AdditiveChi2Sampler.sample_steps s /\
    forall calls,
      exists s2,
        fit_again calls s1 = (Ok s2, s2) /\
        AdditiveChi2Sampler.sample_interval s2 = Some v.
Proof.
  destruct s as [n si]. cbn [AdditiveChi2Sampler.sample_interval].
  intros -> Hfit. rewrite additive_fit_unset in *.
  destruct (n =? 1)%Z;
    [|destruct (n =? 2)%Z; [|destruct (n =? 3)%Z; [|discriminate]]];
    cbn [fst snd] in *; injection Hfit as <-;
    eexists; (split; [reflexivity|]); (split; [reflexivity|]);
    (split; [reflexivity|]); intros calls;
    now apply fit_again_keeps_interval.
Qed.

Lemma additive_fit_sticky_interval_witness :
  exists s2,
    fit_again [(7%Z, X_1_2); ((-3)%Z, X_1_1)]
              (AdditiveChi2Sampler.mk 2 (Some (5 / 10))) = (Ok s2, s2) /\
    AdditiveChi2Sampler.sample_interval s2 = Some (5 / 10).
Proof.
  destruct (additive_fit_sticky_interval
              (AdditiveChi2Sampler.mk 2 None)
              (AdditiveChi2Sampler.mk 2 (Some (5 / 10))) X_1_2
              eq_refl eq_refl) as (v & _ & Hv & _ & Hcalls).
  injection Hv as <-. apply Hcalls.
Defined.

Lemma hstack_of_maps_returns (f : R -> R) (fs : list (R -> R))
    (X : Np.ndarray) :
  exists out, Np.hstack (List.map (fun h => Np.map h X) (f :: fs)) = Ok out.
Proof.
  assert (Hall : forallb (fun c => (Np.nrows c =? Np.nrows (Np.map f X))%nat)
                   (List.map (fun h => Np.map h X) fs) = true).
  { apply forallb_forall. intros c Hc.
    apply in_map_iff in Hc. destruct Hc as (h & <- & _).
    simpl. apply Nat.eqb_refl. }
  cbn [List.map Np.hstack]. rewrite Hall. eexists. reflexivity.
Qed.

Lemma additive_transform_keeps_self (s : AdditiveChi2Sampler.t)
    (X : Np.ndarray) :
  snd (AdditiveChi2Sampler.transform X s) = s.
Proof.
  unfold AdditiveChi2Sampler.transform.
  destruct (Np.any _ X); [reflexivity|].
  unfold bind, self, lift, raise.
  destruct (AdditiveChi2Sampler.sample_interval s); [|reflexivity].
  destruct (AdditiveChi2Sampler.loop _ _ _ _ _); reflexivity.
Qed.

(** C8: [transform] raises the invalid-input error exactly when [X] holds
    an entry that is zero or negative; the scan of [X] comes first, so the
    error is raised whatever the configuration is, nothing is returned and
    the instance is left as it was. *)
Theorem additive_transform_rejects_nonpositive
    (s : AdditiveChi2Sampler.t) (X : Np.ndarray) :
  ((exists row x, In row (Np.rows X) /\ In x row /\ x <= 0) <->
   fst (AdditiveChi2Sampler.transform X s)
   = Raise (ValueError "Entries of X must be strictly positive.")) /\
  ((exists row x, In row (Np.rows X) /\ In x row /\ x <= 0) ->
   AdditiveChi2Sampler.transform X s
   = (Raise (ValueError "Entries of X must be strictly positive."), s)) /\
  snd (AdditiveChi2Sampler.transform X s) = s.
Proof.
  assert (Hscan : (exists row x, In row (Np.rows X) /\ In x row /\ x <= 0) ->
                  Np.any (fun x => Rleb x 0) X = true).
  { intros (row & x & Hrow & Hx & Hle). apply any_true.
    exists row, x. repeat split; try assumption. now apply Rleb_true. }
  split; [split|split].
  - intros Hex.
    now rewrite (AdditiveChi2Facts.transform_scan_failed s X (Hscan Hex)).
  - intros Hraise.
    destruct (Np.any (fun x => Rleb x 0) X) eqn:E.
    + apply any_true in E. destruct E as (row & x & Hrow & Hx & Hle).
      exists row, x. repeat split; try assumption. now apply Rleb_true.
    + exfalso. destruct (AdditiveChi2Sampler.sample_interval s) as [si|] eqn:Hsi.
      * rewrite (AdditiveChi2Facts.transform_scan_passed s X si E Hsi) in Hraise.
        destruct (hstack_of_maps_returns (Chi2Code.code_zeroth si)
                    (Chi2Code.code_blocks si
                       (Np.xrange 1 (AdditiveChi2Sampler.sample_steps s))) X)
          as (out & Hout).
        rewrite Hout in Hraise. discriminate.
      * unfold AdditiveChi2Sampler.transform in Hraise. rewrite E in Hraise.
        unfold bind, self, raise in Hraise. rewrite Hsi in Hraise.
        discriminate.
  - intros Hex. now apply AdditiveChi2Facts.transform_scan_failed, Hscan.
  - apply additive_transform_keeps_self.
Qed.

Lemma additive_transform_rejects_nonpositive_witness :
  AdditiveChi2Sampler.transform X_zero (AdditiveChi2Sampler.mk 2 None)
  = (Raise (ValueError "Entries of X must be strictly positive."),
     AdditiveChi2Sampler.mk 2 None).
Proof.
  apply (proj1 (proj2 (additive_transform_rejects_nonpositive
                         (AdditiveChi2Sampler.mk 2 None) X_zero))).
  exists [1; 0], 0. simpl. repeat split; auto. lra.
Defined.

(** ** Entries of products and broadcast sums *)

Lemma rsum_shift (n : nat) (f : nat -> R) :
  rsum (S n) f = f 0%nat + rsum n (fun k => f (S k)).
Proof.
  induction n as [|n IH].
  - simpl. lra.
  - change (rsum (S (S n)) f) with (rsum (S n) f + f (S n)).
    rewrite IH. simpl. lra.
Qed.

Lemma rsum_ext (n : nat) (f g : nat -> R) :
  (forall k, (k < n)%nat -> f k = g k) -> rsum n f = rsum n g.
Proof.
  induction n as [|n IH]; intros H; simpl; [reflexivity|].
  rewrite IH by (intros; apply H; lia). now rewrite H by lia.
Qed.

Lemma inner_rsum (u v : list R) :
  length u = length v ->
  Np.inner u v = rsum (length u) (fun k => nth k u 0 * nth k v 0).
Proof.
  revert v. induction u as [|a u IH]; intros [|b v] Hlen;
    try discriminate; [reflexivity|].
  cbn [length]. rewrite rsum_shift. cbn [nth].
  unfold Np.inner in *. cbn [Np.zip_with fold_right].
  rewrite IH by (simpl in Hlen; lia). reflexivity.
Qed.

Lemma column_nth (j k : nat) (W : Np.ndarray) :
  nth k (Np.column j W) 0 = Np.get W k j.
Proof.
  unfold Np.column, Np.get.
  rewrite <- (map_nth (fun r : list R => nth j r 0) (Np.rows W) [] k).
  now destruct j.
Qed.

Lemma column_length (j : nat) (W : Np.ndarray) :
  length (Np.column j W) = length (Np.rows W).
Proof. unfold Np.column. apply length_map. Qed.

Lemma nth_map_in_range {A B : Type} (f : A -> B) (l : list A) (i : nat)
    (d : B) (d' : A) :
  (i < length l)%nat -> nth i (List.map f l) d = f (nth i l d').
Proof.
  intros Hi. rewrite (nth_indep _ d (f d')) by (now rewrite length_map).
  apply map_nth.
Qed.

Lemma nth_zip_with {A B C : Type} (f : A -> B -> C) (u : list A) (v : list B)
    (j : nat) (d : C) (du : A) (dv : B) :
  (j < length u)%nat -> (j < length v)%nat ->
  nth j (Np.zip_with f u v) d = f (nth j u du) (nth j v dv).
Proof.
  revert v j. induction u as [|a u IH]; intros [|b v] [|j] Hu Hv;
    simpl in *; try lia; [reflexivity|].
  apply IH; lia.
Qed.

Lemma zip_with_length {A B C : Type} (f : A -> B -> C) (u : list A)
    (v : list B) :
  length u = length v -> length (Np.zip_with f u v) = length u.
Proof.
  revert v. induction u as [|a u IH]; intros [|b v] H; simpl in *;
    try lia. now rewrite IH by lia.
Qed.

Lemma wf_row_length (A : Np.ndarray) (i : nat) :
  Np.wf A -> (i < Np.nrows A)%nat ->
  length (nth i (Np.rows A) []) = Np.ncols A.
Proof.
  intros [Hlen Hrows] Hi. rewrite Forall_forall in Hrows.
  apply Hrows, nth_In. lia.
Qed.

Lemma get_map (f : R -> R) (A : Np.ndarray) (i j : nat) :
  Np.wf A -> (i < Np.nrows A)%nat -> (j < Np.ncols A)%nat ->
  Np.get (Np.map f A) i j = f (Np.get A i j).
Proof.
  intros HA Hi Hj. unfold Np.get, Np.map. cbn [Np.rows].
  rewrite (nth_map_in_range _ _ _ _ []) by (destruct HA; lia).
  apply nth_map_in_range. now rewrite wf_row_length.
Qed.

Lemma map_wf (f : R -> R) (A : Np.ndarray) : Np.wf A -> Np.wf (Np.map f A).
Proof.
  intros [Hlen Hrows]. split; cbn [Np.map Np.rows Np.nrows Np.ncols].
  - now rewrite length_map.
  - apply Forall_forall. intros r Hr. apply in_map_iff in Hr.
    destruct Hr as (r0 & <- & Hr0). rewrite length_map.
    rewrite Forall_forall in Hrows. now apply Hrows.
Qed.

Lemma matmul_wf (A W : Np.ndarray) : Np.wf A -> Np.wf (Np.matmul A W).
Proof.
  intros [Hlen _]. split; cbn [Np.matmul Np.rows Np.nrows Np.ncols].
  - now rewrite length_map.
  - apply Forall_forall. intros r Hr. apply in_map_iff in Hr.
    destruct Hr as (r0 & <- & _). now rewrite length_map, length_seq.
Qed.

Lemma get_matmul (A W : Np.ndarray) (i j : nat) :
  Np.wf A -> Np.wf W -> Np.ncols A = Np.nrows W ->
  (i < Np.nrows A)%nat -> (j < Np.ncols W)%nat ->
  Np.get (Np.matmul A W) i j
  = rsum (Np.ncols A) (fun k => Np.get A i k * Np.get W k j).
Proof.
  intros HA HW Hdim Hi Hj. unfold Np.get at 1. cbn [Np.matmul Np.rows].
  rewrite (nth_map_in_range _ _ _ _ []) by (destruct HA; lia).
  rewrite (nth_map_in_range _ _ _ _ 0%nat) by (now rewrite length_seq).
  rewrite seq_nth by exact Hj. cbn [Nat.add].
  rewrite inner_rsum.
  - rewrite wf_row_length by assumption.
    apply rsum_ext. intros k _. now rewrite column_nth.
  - rewrite column_length, wf_row_length by assumption.
    destruct HW; lia.
Qed.

Lemma add_vec_matching (P : Np.ndarray) (b : list R) :
  Np.ncols P = length b ->
  Np.add_vec P b
  = Ok (Np.mk_array (Np.nrows P) (Np.ncols P)
          (List.map (fun r => Np.zip_with Rplus r b) (Np.rows P))).
Proof. intros H. unfold Np.add_vec. now rewrite H, Nat.eqb_refl. Qed.

Lemma add_vec_wf (P : Np.ndarray) (b : list R) :
  Np.wf P -> Np.ncols P = length b ->
  Np.wf (Np.mk_array (Np.nrows P) (Np.ncols P)
           (List.map (fun r => Np.zip_with Rplus r b) (Np.rows P))).
Proof.
  intros [Hlen Hrows] Hb. split; cbn [Np.rows Np.nrows Np.ncols].
  - now rewrite length_map.
  - apply Forall_forall. intros r Hr. apply in_map_iff in Hr.
    destruct Hr as (r0 & <- & Hr0). rewrite Forall_forall in Hrows.
    rewrite zip_with_length; rewrite (Hrows r0 Hr0); auto.
Qed.

Lemma get_add_vec (P : Np.ndarray) (b : list R) (i j : nat) :
  Np.wf P -> Np.ncols P = length b ->
  (i < Np.nrows P)%nat -> (j < Np.ncols P)%nat ->
  Np.get (Np.mk_array (Np.nrows P) (Np.ncols P)
            (List.map (fun r => Np.zip_with Rplus r b) (Np.rows P))) i j
  = Np.get P i j + nth j b 0.
Proof.
  intros HP Hb Hi Hj. unfold Np.get. cbn [Np.rows].
  rewrite (nth_map_in_range _ _ _ _ []) by (destruct HP; lia).
  apply nth_zip_with; [now rewrite wf_row_length | lia].
Qed.

(** ** The transforms of the Monte Carlo maps *)

Lemma rbf_transform_value {G : Type} (s : RBFSampler.t G) (X W : Np.ndarray)
    (b : list R) :
  rbf_fitted s (Np.ncols X) W b ->
  RBFSampler.transform X s
  = (Ok (Np.map (scaled_cos (RBFSampler.n_components s))
           (Np.mk_array (Np.nrows X) (Np.ncols W)
              (List.map (fun r => Np.zip_with Rplus r b)
                        (Np.rows (Np.matmul X W))))),
     s).
Proof.
  intros (HW & Hb & _ & Hrows & Hcols & Hlen).
  unfold RBFSampler.transform, bind, attr, lift, self, ret.
  rewrite HW. unfold safe_sparse_dot. rewrite Hrows, Nat.eqb_refl, Hb.
  rewrite add_vec_matching by (cbn [Np.matmul Np.ncols]; lia).
  reflexivity.
Qed.

Lemma nonnegative_scan (X : Np.ndarray) :
  Forall (Forall (fun x => 0 <= x)) (Np.rows X) ->
  Np.any (fun x => Rltb x 0) X = false.
Proof.
  intros Hpos. destruct (Np.any _ X) eqn:E; [|reflexivity].
  apply any_true in E. destruct E as (row & x & Hrow & Hx & Hlt).
  apply Rltb_true in Hlt.
  rewrite Forall_forall in Hpos. specialize (Hpos row Hrow).
  rewrite Forall_forall in Hpos. specialize (Hpos x Hx). lra.
Qed.

Lemma skewed_transform_value {G : Type} (s : SkewedChi2Sampler.t G)
    (X W : Np.ndarray) (b : list R) :
  Np.any (fun x => Rltb x 0) X = false ->
  skewed_fitted s (Np.ncols X) W b ->
  SkewedChi2Sampler.transform X s
  = (Ok (Np.map (scaled_cos (SkewedChi2Sampler.n_components s))
           (Np.mk_array (Np.nrows X) (Np.ncols W)
              (List.map (fun r => Np.zip_with Rplus r b)
                 (Np.rows
                    (Np.matmul
                       (Np.map (fun x => ln (x + SkewedChi2Sampler.skewedness s)) X)
                       W))))),
     s).
Proof.
  intros Hscan (HW & Hb & _ & Hrows & Hcols & Hlen).
  unfold SkewedChi2Sampler.transform. rewrite Hscan.
  unfold bind, attr, lift, self, ret.
  rewrite HW. unfold safe_sparse_dot.
  cbn [Np.map Np.ncols]. rewrite Hrows, Nat.eqb_refl, Hb.
  rewrite add_vec_matching by (cbn [Np.matmul Np.ncols]; lia).
  reflexivity.
Qed.

(** The entries of a scaled cosine of a broadcast sum over a product. *)
Lemma projection_entries (n : nat) (A W : Np.ndarray) (b : list R) :
  Np.wf A -> Np.wf W -> Np.ncols A = Np.nrows W -> length b = Np.ncols W ->
  let out :=
    Np.map (scaled_cos n)
      (Np.mk_array (Np.nrows A) (Np.ncols W)
         (List.map (fun r => Np.zip_with Rplus r b)
                   (Np.rows (Np.matmul A W)))) in
  Np.wf out /\ Np.nrows out = Np.nrows A /\ Np.ncols out = Np.ncols W /\
  forall i j, (i < Np.nrows A)%nat -> (j < Np.ncols W)%nat ->
    Np.get out i j
    = sqrt 2 / sqrt (INR n) *
      cos (rsum (Np.ncols A) (fun k => Np.get A i k * Np.get W k j)
           + nth j b 0).
Proof.
  intros HA HW Hdim Hb out.
  pose proof (matmul_wf A W HA) as HP.
  assert (Hb' : Np.ncols (Np.matmul A W) = length b)
    by (cbn [Np.matmul Np.ncols]; lia).
  pose proof (add_vec_wf _ b HP Hb') as HS.
  split; [|split; [|split]].
  - apply map_wf. exact HS.
  - reflexivity.
  - reflexivity.
  - intros i j Hi Hj. unfold out.
    rewrite get_map; [| exact HS | exact Hi | exact Hj ].
    unfold scaled_cos. do 2 f_equal.
    transitivity (Np.get (Np.matmul A W) i j + nth j b 0);
      [exact (get_add_vec (Np.matmul A W) b i j HP Hb' Hi Hj)|].
    now rewrite get_matmul.
Qed.

Lemma rbf_example_fitted : rbf_fitted rbf_example 2 W_2_2 [0; 0].
Proof.
  repeat split; try reflexivity. repeat constructor.
Qed.

Lemma skewed_example_fitted : skewed_fitted skewed_example 2 W_2_2 [0; 0].
Proof.
  repeat split; try reflexivity. repeat constructor.
Qed.

Lemma X_1_2_nonnegative : Forall (Forall (fun x => 0 <= x)) (Np.rows X_1_2).
Proof. repeat constructor; lra. Qed.

(** C1: on a fitted RBFSampler and an input of matching feature count,
    [transform] returns the array whose entry [(i, j)] is
    [sqrt 2 / sqrt n_components * cos ((X . random_weights)(i, j) +
    random_offset(j))]; on a fitted SkewedChi2Sampler and a non-negative
    input it returns the same expression with the product taken of
    [log (X + skewedness)], entry by entry.  Neither call changes the
    instance. *)
Theorem monte_carlo_transform_formula :
  (forall (G : Type) (s : RBFSampler.t G) (X W : Np.ndarray) (b : list R),
      rbf_fitted s (Np.ncols X) W b -> Np.wf X ->
      exists out,
        RBFSampler.transform X s = (Ok out, s) /\
        Np.wf out /\ Np.nrows out = Np.nrows X /\
        Np.ncols out = RBFSampler.n_components s /\
        forall i j,
          (i < Np.nrows X)%nat -> (j < RBFSampler.n_components s)%nat ->
          Np.get out i j
          = sqrt 2 / sqrt (INR (RBFSampler.n_components s)) *
            cos (rsum (Np.ncols X) (fun k => Np.get X i k * Np.get W k j)
                 + nth j b 0)) /\
  (forall (G : Type) (s : SkewedChi2Sampler.t G) (X W : Np.ndarray)
          (b : list R),
      skewed_fitted s (Np.ncols X) W b -> Np.wf X ->
      Forall (Forall (fun x => 0 <= x)) (Np.rows X) ->
      exists out,
        SkewedChi2Sampler.transform X s = (Ok out, s) /\
        Np.wf out /\ Np.nrows out = Np.nrows X /\
        Np.ncols out = SkewedChi2Sampler.n_components s /\
        forall i j,
          (i < Np.nrows X)%nat ->
          (j < SkewedChi2Sampler.n_components s)%nat ->
          Np.get out i j
          = sqrt 2 / sqrt (INR (SkewedChi2Sampler.n_components s)) *
            cos (rsum (Np.ncols X)
                   (fun k => ln (Np.get X i k + SkewedChi2Sampler.skewedness s)
                             * Np.get W k j)
                 + nth j b 0)).
Proof.
  split.
  - intros G s X W b Hfit HX.
    pose proof Hfit as (_ & _ & HW & Hrows & Hcols & Hlen).
    destruct (projection_entries (RBFSampler.n_components s) X W b)
      as (Hwf & Hr & Hc & Hget); try assumption; try lia.
    eexists. split; [exact (rbf_transform_value s X W b Hfit)|].
    split; [exact Hwf|]. split; [exact Hr|]. split; [exact (eq_trans Hc Hcols)|].
    intros i j Hi Hj. apply Hget; lia.
  - intros G s X W b Hfit HX Hpos.
    pose proof Hfit as (_ & _ & HW & Hrows & Hcols & Hlen).
    set (L := fun x => ln (x + SkewedChi2Sampler.skewedness s)).
    destruct (projection_entries (SkewedChi2Sampler.n_components s)
                (Np.map L X) W b)
      as (Hwf & Hr & Hc & Hget);
      try assumption; try (cbn [Np.map Np.ncols]; lia).
    { now apply map_wf. }
    eexists. split.
    { exact (skewed_transform_value s X W b (nonnegative_scan X Hpos) Hfit). }
    split; [exact Hwf|]. split; [exact Hr|]. split; [exact (eq_trans Hc Hcols)|].
    intros i j Hi Hj. fold L.
    rewrite Hget by (cbn [Np.map Np.nrows]; lia).
    do 3 f_equal. cbn [Np.map Np.ncols].
    apply rsum_ext. intros k Hk. unfold L. now rewrite get_map.
Qed.

Lemma monte_carlo_transform_formula_witness :
  (exists out,
      RBFSampler.transform X_1_2 rbf_example = (Ok out, rbf_example) /\
      Np.ncols out = 2%nat) /\
  (exists out,
      SkewedChi2Sampler.transform X_1_2 skewed_example
      = (Ok out, skewed_example) /\
      Np.ncols out = 2%nat).
Proof.
  split.
  - destruct (proj1 monte_carlo_transform_formula nat rbf_example X_1_2
                W_2_2 [0; 0] rbf_example_fitted X_1_2_wf)
      as (out & Hrun & _ & _ & Hc & _).
    exists out. split; [exact Hrun | exact Hc].
  - destruct (proj2 monte_carlo_transform_formula nat skewed_example X_1_2
                W_2_2 [0; 0] skewed_example_fitted X_1_2_wf
                X_1_2_nonnegative)
      as (out & Hrun & _ & _ & Hc & _).
    exists out. split; [exact Hrun | exact Hc].
Defined.

Lemma skewed_transform_keeps_self {G : Type} (s : SkewedChi2Sampler.t G)
    (X : Np.ndarray) :
  snd (SkewedChi2Sampler.transform X s) = s.
Proof.
  unfold SkewedChi2Sampler.transform.
  destruct (Np.any _ X); [reflexivity|].
  unfold bind, attr, lift, self, ret.
  destruct (SkewedChi2Sampler.random_weights_ s) as [W|]; [|reflexivity].
  destruct (safe_sparse_dot _ W) as [P|e]; [|reflexivity].
  destruct (SkewedChi2Sampler.random_offset_ s) as [b|]; [|reflexivity].
  destruct (Np.add_vec P b); reflexivity.
Qed.

Lemma skewed_scan_passed_other_outcome {G : Type}
    (s : SkewedChi2Sampler.t G) (X : Np.ndarray) :
  Np.any (fun x => Rltb x 0) X = false ->
  fst (SkewedChi2Sampler.transform X s)
  <> Raise (ValueError "X may not contain entries smaller than zero.").
Proof.
  intros Hscan. unfold SkewedChi2Sampler.transform. rewrite Hscan.
  unfold bind, attr, lift, self, ret.
  destruct (SkewedChi2Sampler.random_weights_ s) as [W|]; [|discriminate].
  unfold safe_sparse_dot.
  destruct (Np.ncols _ =? Np.nrows W)%nat; [|discriminate].
  destruct (SkewedChi2Sampler.random_offset_ s) as [b|]; [|discriminate].
  unfold Np.add_vec.
  destruct (Np.ncols _ =? length b)%nat; [discriminate|].
  destruct (length b =? 1)%nat; [discriminate|].
  destruct (Np.ncols _ =? 1)%nat; discriminate.
Qed.

(** C7: [transform] raises the invalid-input error exactly when [X] holds
    an entry smaller than zero; when it raises nothing is returned, and the
    instance, with its [random_weights_] and [random_offset_], is left as it
    was. *)
Theorem skewed_transform_rejects_negative
    {G : Type} (s : SkewedChi2Sampler.t G) (X : Np.ndarray) :
  ((exists row x, In row (Np.rows X) /\ In x row /\ x < 0) <->
   fst (SkewedChi2Sampler.transform X s)
   = Raise (ValueError "X may not contain entries smaller than zero.")) /\
  ((exists row x, In row (Np.rows X) /\ In x row /\ x < 0) ->
   SkewedChi2Sampler.transform X s
   = (Raise (ValueError "X may not contain entries smaller than zero."), s)) /\
  snd (SkewedChi2Sampler.transform X s) = s.
Proof.
  assert (Hscan : (exists row x, In row (Np.rows X) /\ In x row /\ x < 0) ->
                  Np.any (fun x => Rltb x 0) X = true).
  { intros (row & x & Hrow & Hx & Hlt). apply any_true.
    exists row, x. repeat split; try assumption. now apply Rltb_true. }
  assert (Hraise : (exists row x, In row (Np.rows X) /\ In x row /\ x < 0) ->
                   SkewedChi2Sampler.transform X s
                   = (Raise (ValueError "X may not contain entries smaller than zero."), s)).
  { intros Hex. unfold SkewedChi2Sampler.transform.
    now rewrite (Hscan Hex). }
  split; [split|split].
  - intros Hex. now rewrite (Hraise Hex).
  - intros Hfst. destruct (Np.any (fun x => Rltb x 0) X) eqn:E.
    + apply any_true in E. destruct E as (row & x & Hrow & Hx & Hlt).
      exists row, x. repeat split; try assumption. now apply Rltb_true.
    + exfalso. now apply (skewed_scan_passed_other_outcome s X E).
  - exact Hraise.
  - apply skewed_transform_keeps_self.
Qed.

Lemma skewed_transform_rejects_negative_witness :
  SkewedChi2Sampler.transform X_neg skewed_example
  = (Raise (ValueError "X may not contain entries smaller than zero."),
     skewed_example).
Proof.
  apply (proj1 (proj2 (skewed_transform_rejects_negative
                         skewed_example X_neg))).
  exists [1; -1], (-1). simpl. repeat split; auto. lra.
Defined.








(** ** Fitting the Monte Carlo maps *)

Lemma const_array_wf (r c : nat) (v : R) : Np.wf (const_array r c v).
Proof.
  split; cbn [const_array Np.rows Np.nrows Np.ncols].
  - apply repeat_length.
  - apply Forall_forall. intros row Hrow.
    apply repeat_spec in Hrow. subst row. apply repeat_length.
Qed.

Lemma const_array_entries (P : R -> Prop) (r c : nat) (v : R) :
  P v -> Forall (Forall P) (Np.rows (const_array r c v)).
Proof.
  intros Hv. cbn [const_array Np.rows].
  apply Forall_forall. intros row Hrow. apply repeat_spec in Hrow.
  subst row. apply Forall_forall. intros x Hx.
  apply repeat_spec in Hx. now subst x.
Qed.

#[export] Instance counter_rng_laws : RandomStateLaws nat.
Proof.
  constructor.
  - intros r c g. cbn [normal counter_rng fst].
    split; [apply const_array_wf | split; reflexivity].
  - intros lo hi n g. cbn [uniform counter_rng fst]. apply repeat_length.
  - intros lo hi n g Hlt. cbn [uniform counter_rng fst].
    apply Forall_forall. intros x Hx. apply repeat_spec in Hx. subst x. lra.
  - intros lo hi r c g. cbn [uniform2 counter_rng fst].
    split; [apply const_array_wf | split; reflexivity].
  - intros lo hi r c g Hlt. cbn [uniform2 counter_rng fst].
    apply const_array_entries. lra.
Qed.

Lemma rbf_fit_value {G : Type} `{RandomState G} (s : RBFSampler.t G)
    (X : Np.ndarray) :
  let g0 := check_random_state (RBFSampler.random_state s) in
  let Zg := normal (Np.ncols X) (RBFSampler.n_components s) g0 in
  let ug := uniform 0 (2 * PI) (RBFSampler.n_components s) (snd Zg) in
  let s' :=
    RBFSampler.mk (RBFSampler.gamma s) (RBFSampler.n_components s)
      (RsInstance (snd ug))
      (Some (Np.map (fun z => sqrt (RBFSampler.gamma s) * z) (fst Zg)))
      (Some (fst ug)) in
  RBFSampler.fit X s = (Ok s', s').
Proof.
  intros g0 Zg ug s'. subst s' ug Zg g0.
  unfold RBFSampler.fit, bind, self, assign, RBFSampler.draw.
  cbn [RBFSampler.set_random_state RBFSampler.random_state
       RBFSampler.n_components RBFSampler.gamma check_random_state
       RBFSampler.random_weights_ RBFSampler.random_offset_].
  destruct (normal _ _ _) as [Zm g1].
  cbn [RBFSampler.set_random_weights_ RBFSampler.set_random_state
       RBFSampler.random_state RBFSampler.n_components RBFSampler.gamma
       check_random_state RBFSampler.random_weights_
       RBFSampler.random_offset_ fst snd].
  destruct (uniform _ _ _ _) as [u g2].
  reflexivity.
Qed.

Lemma skewed_fit_value {G : Type} `{RandomState G}
    (s : SkewedChi2Sampler.t G) (X : Np.ndarray) :
  let g0 := check_random_state (SkewedChi2Sampler.random_state s) in
  let Ug := uniform2 0 1 (Np.ncols X) (SkewedChi2Sampler.n_components s) g0 in
  let ug := uniform 0 (2 * PI) (SkewedChi2Sampler.n_components s) (snd Ug) in
  let s' :=
    SkewedChi2Sampler.mk (SkewedChi2Sampler.skewedness s)
      (SkewedChi2Sampler.n_components s)
      (RsInstance (snd ug))
      (Some (Np.map SkewedChi2Sampler.inverse_cdf (fst Ug)))
      (Some (fst ug)) in
  SkewedChi2Sampler.fit X s = (Ok s', s').
Proof.
  intros g0 Ug ug s'. subst s' ug Ug g0.
  unfold SkewedChi2Sampler.fit, bind, self, assign, SkewedChi2Sampler.draw.
  cbn [SkewedChi2Sampler.set_random_state SkewedChi2Sampler.random_state
       SkewedChi2Sampler.n_components SkewedChi2Sampler.skewedness
       check_random_state SkewedChi2Sampler.random_weights_
       SkewedChi2Sampler.random_offset_].
  destruct (uniform2 _ _ _ _ _) as [Um g1].
  cbn [SkewedChi2Sampler.set_random_weights_
       SkewedChi2Sampler.set_random_state SkewedChi2Sampler.random_state
       SkewedChi2Sampler.n_components SkewedChi2Sampler.skewedness
       check_random_state SkewedChi2Sampler.random_weights_
       SkewedChi2Sampler.random_offset_ fst snd].
  destruct (uniform _ _ _ _) as [u g2].
  reflexivity.
Qed.

(** What [fit] leaves behind is a fitted instance for inputs with the
    feature count of the training data. *)
Lemma rbf_fit_fitted {G : Type} `{RandomStateLaws G} (s : RBFSampler.t G)
    (X : Np.ndarray) :
  exists W b, rbf_fitted (snd (RBFSampler.fit X s)) (Np.ncols X) W b.
Proof.
  rewrite rbf_fit_value. cbn [snd]. do 2 eexists.
  split; [reflexivity|]. split; [reflexivity|].
  cbn [RBFSampler.n_components].
  destruct (normal_wf (Np.ncols X) (RBFSampler.n_components s)
              (check_random_state (RBFSampler.random_state s)))
    as (HZ & HZr & HZc).
  split; [now apply map_wf|]. split; [exact HZr|]. split; [exact HZc|].
  apply uniform_length.
Qed.

Lemma skewed_fit_fitted {G : Type} `{RandomStateLaws G}
    (s : SkewedChi2Sampler.t G) (X : Np.ndarray) :
  exists W b, skewed_fitted (snd (SkewedChi2Sampler.fit X s)) (Np.ncols X) W b.
Proof.
  rewrite skewed_fit_value. cbn [snd]. do 2 eexists.
  split; [reflexivity|]. split; [reflexivity|].
  cbn [SkewedChi2Sampler.n_components].
  destruct (uniform2_wf 0 1 (Np.ncols X) (SkewedChi2Sampler.n_components s)
              (check_random_state (SkewedChi2Sampler.random_state s)))
    as (HU & HUr & HUc).
  split; [now apply map_wf|]. split; [exact HUr|]. split; [exact HUc|].
  apply uniform_length.
Qed.

Lemma entries_get (P : R -> Prop) (A : Np.ndarray) (i j : nat) :
  Np.wf A -> Forall (Forall P) (Np.rows A) ->
  (i < Np.nrows A)%nat -> (j < Np.ncols A)%nat -> P (Np.get A i j).
Proof.
  intros HA HP Hi Hj. unfold Np.get.
  rewrite Forall_forall in HP.
  assert (Hrow : In (nth i (Np.rows A) []) (Np.rows A))
    by (apply nth_In; destruct HA; lia).
  specialize (HP _ Hrow). rewrite Forall_forall in HP.
  apply HP, nth_In. now rewrite wf_row_length.
Qed.

(** C4: [fit] stores in [random_weights_] an array of shape
    [(n_features, n_components)] whose entries are the generator's normal
    draws multiplied by [sqrt gamma], stores in [random_offset_] the
    [n_components] draws of the generator's uniform law on [0, 2 pi), each
    of which lies in that interval, and returns the instance as it is
    after the call. *)
Theorem rbf_fit_draws
    {G : Type} `{RandomStateLaws G} (s : RBFSampler.t G) (X : Np.ndarray) :
  let n := RBFSampler.n_components s in
  let g0 := check_random_state (RBFSampler.random_state s) in
  let Zg := normal (Np.ncols X) n g0 in
  let ug := uniform 0 (2 * PI) n (snd Zg) in
  exists W b,
    RBFSampler.fit X s
    = (Ok (RBFSampler.mk (RBFSampler.gamma s) n (RsInstance (snd ug))
             (Some W) (Some b)),
       RBFSampler.mk (RBFSampler.gamma s) n (RsInstance (snd ug))
         (Some W) (Some b)) /\
    Np.wf W /\ Np.nrows W = Np.ncols X /\ Np.ncols W = n /\
    (forall i j, (i < Np.ncols X)%nat -> (j < n)%nat ->
       Np.get W i j = sqrt (RBFSampler.gamma s) * Np.get (fst Zg) i j) /\
    b = fst ug /\ length b = n /\
    Forall (fun u => 0 <= u < 2 * PI) b.
Proof.
  intros n g0 Zg ug.
  destruct (normal_wf (Np.ncols X) n g0) as (HZ & HZr & HZc).
  fold Zg in HZ, HZr, HZc.
  exists (Np.map (fun z => sqrt (RBFSampler.gamma s) * z) (fst Zg)), (fst ug).
  split; [apply rbf_fit_value|].
  split; [now apply map_wf|].
  split; [exact HZr|]. split; [exact HZc|].
  split.
  { intros i j Hi Hj. apply get_map; [exact HZ | lia | lia]. }
  split; [reflexivity|].
  split; [apply uniform_length|].
  apply uniform_range. pose proof PI_RGT_0. lra.
Qed.

Lemma rbf_fit_draws_witness :
  exists W b,
    fst (RBFSampler.fit X_1_2 (RBFSampler.init 4 3 (RsSeed 5))) =
      Ok (RBFSampler.mk 4 3 (RsInstance 14%nat) (Some W) (Some b)) /\
    Np.nrows W = 2%nat /\ Np.ncols W = 3%nat /\ length b = 3%nat.
Proof.
  destruct (@rbf_fit_draws nat counter_rng counter_rng_laws
              (RBFSampler.init 4 3 (RsSeed 5)) X_1_2)
    as (W & b & Hrun & _ & Hr & Hc & _ & _ & Hlen & _).
  exists W, b. split; [|split; [exact Hr | split; [exact Hc | exact Hlen]]].
  rewrite Hrun. reflexivity.
Defined.

Lemma low_rng_laws : @RandomStateLaws nat low_rng.
Proof.
  constructor.
  - intros r c g. cbn [normal low_rng fst].
    split; [apply const_array_wf | split; reflexivity].
  - intros lo hi n g. cbn [uniform low_rng fst]. apply repeat_length.
  - intros lo hi n g Hlt. cbn [uniform low_rng fst].
    apply Forall_forall. intros x Hx. apply repeat_spec in Hx. subst x. lra.
  - intros lo hi r c g. cbn [uniform2 low_rng fst].
    split; [apply const_array_wf | split; reflexivity].
  - intros lo hi r c g Hlt. cbn [uniform2 low_rng fst].
    apply const_array_entries. lra.
Qed.

(** C5 (as stated, refuted): the draws need not lie in the open interval
    (0, 1).  With a generator that obeys its contract and returns the lower
    end of the interval, [fit] applies the inverse CDF to an array of draws
    whose entries are 0. *)
Lemma skewed_fit_draw_at_endpoint :
  @RandomStateLaws nat low_rng /\
  exists U,
    U = fst (@uniform2 nat low_rng 0 1 (Np.ncols X_1_2) 3
               (@check_random_state nat low_rng RsNone)) /\
    SkewedChi2Sampler.random_weights_
      (snd (@SkewedChi2Sampler.fit nat low_rng X_1_2
              (SkewedChi2Sampler.init 1 3 RsNone)))
    = Some (Np.map SkewedChi2Sampler.inverse_cdf U) /\
    Np.nrows U = 2%nat /\ Np.ncols U = 3%nat /\
    Np.get U 0 0 = 0 /\
    ~ (0 < Np.get U 0 0 < 1).
Proof.
  split; [exact low_rng_laws|].
  eexists. split; [reflexivity|].
  split; [rewrite skewed_fit_value; reflexivity|].
  split; [reflexivity|]. split; [reflexivity|].
  split; [reflexivity|].
  cbn. lra.
Qed.

(** C5 (amended): [fit] draws an array [U] of shape
    [(n_features, n_components)] from the generator's uniform law between
    0 and 1, whose entries [u] lie in the half-open interval [0, 1), and
    stores in [random_weights_] an array of the same shape whose entry is
    [1 / pi * ln (tan (pi / 2 * u))], the logarithm of a positive number,
    wherever the draw [u] is not 0. *)
Theorem skewed_fit_inverse_cdf
    {G : Type} `{RandomStateLaws G} (s : SkewedChi2Sampler.t G)
    (X : Np.ndarray) :
  let n := SkewedChi2Sampler.n_components s in
  let g0 := check_random_state (SkewedChi2Sampler.random_state s) in
  let Ug := uniform2 0 1 (Np.ncols X) n g0 in
  let ug := uniform 0 (2 * PI) n (snd Ug) in
  exists W,
    SkewedChi2Sampler.fit X s
    = (Ok (SkewedChi2Sampler.mk (SkewedChi2Sampler.skewedness s) n
             (RsInstance (snd ug)) (Some W) (Some (fst ug))),
       SkewedChi2Sampler.mk (SkewedChi2Sampler.skewedness s) n
         (RsInstance (snd ug)) (Some W) (Some (fst ug))) /\
    Np.wf W /\ Np.nrows W = Np.ncols X /\ Np.ncols W = n /\
    Np.wf (fst Ug) /\ Np.nrows (fst Ug) = Np.ncols X /\
    Np.ncols (fst Ug) = n /\
    forall i j, (i < Np.ncols X)%nat -> (j < n)%nat ->
      0 <= Np.get (fst Ug) i j < 1 /\
      (0 < Np.get (fst Ug) i j ->
       0 < tan (PI / 2 * Np.get (fst Ug) i j) /\
       Np.get W i j = 1 / PI * ln (tan (PI / 2 * Np.get (fst Ug) i j))).
Proof.
  intros n g0 Ug ug.
  destruct (uniform2_wf 0 1 (Np.ncols X) n g0) as (HU & HUr & HUc).
  fold Ug in HU, HUr, HUc.
  exists (Np.map SkewedChi2Sampler.inverse_cdf (fst Ug)).
  split; [apply skewed_fit_value|].
  split; [now apply map_wf|].
  split; [exact HUr|]. split; [exact HUc|].
  split; [exact HU|]. split; [exact HUr|]. split; [exact HUc|].
  intros i j Hi Hj.
  assert (Hu : 0 <= Np.get (fst Ug) i j < 1).
  { apply (entries_get (fun u => 0 <= u < 1)); [exact HU | | lia | lia].
    apply uniform2_range. lra. }
  split; [exact Hu|]. intros Hpos. split.
  - pose proof PI_RGT_0. apply tan_gt_0; nra.
  - rewrite get_map; [reflexivity | exact HU | lia | lia].
Qed.

Lemma skewed_fit_inverse_cdf_witness :
  exists W,
    fst (SkewedChi2Sampler.fit X_1_2 (SkewedChi2Sampler.init 1 3 RsNone)) =
      Ok (SkewedChi2Sampler.mk 1 3 (RsInstance 9%nat) (Some W)
            (Some (fst (uniform 0 (2 * PI) 3 6%nat)))) /\
    Np.nrows W = 2%nat /\ Np.ncols W = 3%nat /\
    0 < tan (PI / 2 * ((0 + 1) / 2)) /\
    Np.get W 1 2 = 1 / PI * ln (tan (PI / 2 * ((0 + 1) / 2))).
Proof.
  destruct (@skewed_fit_inverse_cdf nat counter_rng counter_rng_laws
              (SkewedChi2Sampler.init 1 3 RsNone) X_1_2)
    as (W & Hrun & _ & Hr & Hc & _ & _ & _ & Hget).
  exists W.
  split; [|split; [exact Hr | split; [exact Hc |]]].
  - rewrite Hrun. reflexivity.
  - destruct (Hget 1%nat 2%nat) as (_ & Hpos); [simpl; lia | simpl; lia |].
    apply Hpos. cbn. lra.
Defined.

Lemma sqrt_2_not_1 : sqrt 2 <> 1.
Proof.
  intros H. pose proof (sqrt_sqrt 2) as Hs. rewrite H in Hs. lra.
Qed.

(** C3 (the code at a concrete input): with [gamma = 1] and a generator
    whose normal draw is 1, [fit] stores the weight [sqrt gamma * 1 = 1];
    the scale [sqrt (2 * gamma)] would have given [sqrt 2]. *)
Theorem rbf_fit_scale_at_gamma_one :
  exists W,
    RBFSampler.random_weights_
      (snd (RBFSampler.fit X_1_1 (RBFSampler.init 1 1 (RsInstance 1%nat))))
    = Some W /\
    Np.get (fst (normal 1 1 1%nat)) 0 0 = 1 /\
    Np.get W 0 0 = 1 /\
    Np.get W 0 0 <> sqrt (2 * 1) * 1.
Proof.
  rewrite rbf_fit_value. cbn [snd RBFSampler.random_weights_].
  eexists. split; [reflexivity|].
  cbn. rewrite sqrt_1, !Rmult_1_r.
  split; [reflexivity|]. split; [reflexivity|].
  intros H. now apply sqrt_2_not_1.
Qed.

(** ** Inner products of transformed rows of the additive map *)

Lemma inner_app (u u' v v' : list R) :
  length u = length u' ->
  Np.inner (u ++ v) (u' ++ v') = Np.inner u u' + Np.inner v v'.
Proof.
  revert u'. unfold Np.inner.
  induction u as [|a u IH]; intros [|a' u'] Hlen; simpl in *;
    try discriminate; [lra|].
  rewrite IH by lia. lra.
Qed.

Lemma inner_of_maps (f g : R -> R) (r r' : list R) :
  Np.inner (List.map f r) (List.map g r')
  = rlist_sum (Np.zip_with (fun x y => f x * g y) r r').
Proof.
  revert r'. unfold Np.inner, rlist_sum.
  induction r as [|a r IH]; intros [|a' r']; simpl; try reflexivity.
  now rewrite IH.
Qed.

Lemma rlist_sum_zip_plus (F1 F2 : R -> R -> R) (r r' : list R) :
  rlist_sum (Np.zip_with (fun x y => F1 x y + F2 x y) r r')
  = rlist_sum (Np.zip_with F1 r r') + rlist_sum (Np.zip_with F2 r r').
Proof.
  revert r'. unfold rlist_sum.
  induction r as [|a r IH]; intros [|a' r']; simpl; try lra.
  rewrite IH. lra.
Qed.

Lemma rlist_sum_zip_zero (r r' : list R) :
  rlist_sum (Np.zip_with (fun _ _ => 0) r r') = 0.
Proof.
  revert r'. unfold rlist_sum.
  induction r as [|a r IH]; intros [|a' r']; simpl; try reflexivity.
  rewrite IH. lra.
Qed.

Lemma rlist_sum_zip_ext (P Q : R -> Prop) (F F' : R -> R -> R)
    (r r' : list R) :
  Forall P r -> Forall Q r' ->
  (forall x y, P x -> Q y -> F x y = F' x y) ->
  rlist_sum (Np.zip_with F r r') = rlist_sum (Np.zip_with F' r r').
Proof.
  intros Hr Hr' Hext. revert r' Hr'. unfold rlist_sum.
  induction Hr as [|a r Ha Hr IH]; intros r' Hr'; [reflexivity|].
  destruct Hr' as [|a' r' Ha' Hr']; [reflexivity|].
  simpl. rewrite (Hext a a' Ha Ha'). f_equal. now apply IH.
Qed.

Lemma rlist_sum_scale (k : R) {J : Type} (t : J -> R) (js : list J) :
  rlist_sum (List.map (fun j => k * t j) js) = k * rlist_sum (List.map t js).
Proof.
  unfold rlist_sum. induction js as [|j js IH]; simpl; [lra|].
  rewrite IH. lra.
Qed.

Lemma blocks_inner (si : R) (js : list Z) (r r' : list R) :
  length r = length r' ->
  Np.inner
    (flat_map (fun j => List.map (Chi2Spec.cos_component si j) r ++
                        List.map (Chi2Spec.sin_component si j) r) js)
    (flat_map (fun j => List.map (Chi2Spec.cos_component si j) r' ++
                        List.map (Chi2Spec.sin_component si j) r') js)
  = rlist_sum
      (Np.zip_with
         (fun x y =>
            rlist_sum
              (List.map (fun j =>
                           Chi2Spec.cos_component si j x *
                           Chi2Spec.cos_component si j y +
                           Chi2Spec.sin_component si j x *
                           Chi2Spec.sin_component si j y) js))
         r r').
Proof.
  intros Hlen. induction js as [|j js IH].
  - cbn [flat_map List.map rlist_sum fold_right].
    now rewrite rlist_sum_zip_zero.
  - cbn [flat_map List.map].
    rewrite inner_app by (rewrite !length_app, !length_map; lia).
    rewrite inner_app by (rewrite !length_map; lia).
    rewrite !inner_of_maps, IH.
    rewrite <- rlist_sum_zip_plus, <- rlist_sum_zip_plus.
    f_equal.
Qed.

Lemma zeroth_product (si x y : R) :
  0 < si -> 0 < x -> 0 < y ->
  Chi2Spec.zeroth si x * Chi2Spec.zeroth si y = si * sqrt (x * y).
Proof.
  intros Hsi Hx Hy. unfold Chi2Spec.zeroth.
  rewrite <- sqrt_mult by nra.
  replace (x * si * (y * si)) with (si * si * (x * y)) by ring.
  rewrite sqrt_mult by nra. rewrite sqrt_square by lra. reflexivity.
Qed.

Lemma step_product (si : R) (j : Z) (x y : R) :
  0 < si -> 0 < x -> 0 < y ->
  sqrt (Chi2Spec.step_j si j x) * sqrt (Chi2Spec.step_j si j y)
  = 2 * si / cosh (PI * IZR j * si) * sqrt (x * y).
Proof.
  intros Hsi Hx Hy. unfold Chi2Spec.step_j.
  pose proof (cosh_positive (PI * IZR j * si)) as Hc.
  set (ch := cosh (PI * IZR j * si)) in *.
  assert (Hk : 0 < 2 * si / ch) by (apply Rdiv_lt_0_compat; lra).
  replace (2 * x * si / ch) with (2 * si / ch * x) by (field; lra).
  replace (2 * y * si / ch) with (2 * si / ch * y) by (field; lra).
  rewrite <- sqrt_mult by nra.
  replace (2 * si / ch * x * (2 * si / ch * y))
    with (2 * si / ch * (2 * si / ch) * (x * y)) by ring.
  rewrite sqrt_mult by nra. rewrite sqrt_square by lra. reflexivity.
Qed.

Lemma pair_product (si : R) (j : Z) (x y : R) :
  0 < si -> 0 < x -> 0 < y ->
  Chi2Spec.cos_component si j x * Chi2Spec.cos_component si j y +
  Chi2Spec.sin_component si j x * Chi2Spec.sin_component si j y
  = si * sqrt (x * y) *
    (2 * (cos (IZR j * si * (ln x - ln y)) / cosh (PI * IZR j * si))).
Proof.
  intros Hsi Hx Hy.
  unfold Chi2Spec.cos_component, Chi2Spec.sin_component.
  pose proof (step_product si j x y Hsi Hx Hy) as Hs.
  pose proof (cosh_positive (PI * IZR j * si)) as Hc.
  replace (IZR j * si * (ln x - ln y))
    with (IZR j * si * ln x - IZR j * si * ln y) by ring.
  rewrite cos_minus.
  set (a := IZR j * si * ln x). set (b := IZR j * si * ln y).
  transitivity (sqrt (Chi2Spec.step_j si j x) * sqrt (Chi2Spec.step_j si j y)
                * (cos a * cos b + sin a * sin b)); [ring|].
  rewrite Hs. field. lra.
Qed.

Lemma feature_pair_kernel (si : R) (steps : Z) (x y : R) :
  0 < si -> 0 < x -> 0 < y ->
  Chi2Spec.zeroth si x * Chi2Spec.zeroth si y +
  rlist_sum
    (List.map (fun j =>
                 Chi2Spec.cos_component si j x * Chi2Spec.cos_component si j y +
                 Chi2Spec.sin_component si j x * Chi2Spec.sin_component si j y)
              (Np.xrange 1 steps))
  = sampled_chi2_kernel si steps x y.
Proof.
  intros Hsi Hx Hy. unfold sampled_chi2_kernel.
  rewrite zeroth_product by assumption.
  erewrite List.map_ext by (intros j; apply pair_product; assumption).
  rewrite (rlist_sum_scale (si * sqrt (x * y))).
  rewrite (rlist_sum_scale 2). ring.
Qed.

(** The inner product of two transformed rows is the sum, over the
    features, of the sampled kernel of the paired feature values. *)
Lemma component_major_inner (si : R) (steps : Z) (r r' : list R) :
  0 < si -> length r = length r' ->
  Forall (fun x => 0 < x) r -> Forall (fun x => 0 < x) r' ->
  Np.inner (Chi2Spec.component_major_row si steps r)
           (Chi2Spec.component_major_row si steps r')
  = rlist_sum (Np.zip_with (sampled_chi2_kernel si steps) r r').
Proof.
  intros Hsi Hlen Hr Hr'. unfold Chi2Spec.component_major_row.
  rewrite inner_app by (rewrite !length_map; exact Hlen).
  rewrite inner_of_maps, blocks_inner by exact Hlen.
  rewrite <- rlist_sum_zip_plus.
  apply (rlist_sum_zip_ext (fun x => 0 < x) (fun x => 0 < x));
    try assumption.
  intros x y Hx Hy. now apply feature_pair_kernel.
Qed.

Lemma row_positive (X : Np.ndarray) (i : nat) :
  Np.wf X -> Forall (Forall (fun x => 0 < x)) (Np.rows X) ->
  (i < Np.nrows X)%nat ->
  Forall (fun x => 0 < x) (nth i (Np.rows X) []).
Proof.
  intros [Hlen _] Hpos Hi. rewrite Forall_forall in Hpos.
  apply Hpos, nth_In. lia.
Qed.

(** The rows [transform] returns, one per input row. *)
Lemma additive_transform_rows (s : AdditiveChi2Sampler.t) (X : Np.ndarray)
    (si : R) :
  AdditiveChi2Sampler.sample_interval s = Some si ->
  Np.wf X -> Forall (Forall (fun x => 0 < x)) (Np.rows X) ->
  exists out,
    AdditiveChi2Sampler.transform X s = (Ok out, s) /\
    Np.nrows out = Np.nrows X /\
    forall i, (i < Np.nrows X)%nat ->
      nth i (Np.rows out) []
      = Chi2Spec.component_major_row si (AdditiveChi2Sampler.sample_steps s)
          (nth i (Np.rows X) []).
Proof.
  intros Hsi HX Hpos. eexists. split; [|split].
  - apply additive_transform_value;
      [apply HX | now apply AdditiveChi2Facts.positive_scan | exact Hsi].
  - reflexivity.
  - intros i Hi. cbn [Np.rows].
    apply nth_map_in_range. destruct HX; lia.
Qed.

(** X1: for two strictly positive inputs of one width, the inner product
    of a row of [transform X] with a row of [transform Y] is the sum over
    the features of
    [si * sqrt (x * y) * (1 + 2 * sum_j cos (j * si * (ln x - ln y)) /
    cosh (pi * j * si))] at the paired feature values. *)
Theorem additive_transform_inner_product
    (s : AdditiveChi2Sampler.t) (X Y : Np.ndarray) (si : R) :
  AdditiveChi2Sampler.sample_interval s = Some si -> 0 < si ->
  Np.wf X -> Np.wf Y -> Np.ncols X = Np.ncols Y ->
  Forall (Forall (fun x => 0 < x)) (Np.rows X) ->
  Forall (Forall (fun x => 0 < x)) (Np.rows Y) ->
  exists oX oY,
    AdditiveChi2Sampler.transform X s = (Ok oX, s) /\
    AdditiveChi2Sampler.transform Y s = (Ok oY, s) /\
    forall i i', (i < Np.nrows X)%nat -> (i' < Np.nrows Y)%nat ->
      Np.inner (nth i (Np.rows oX) []) (nth i' (Np.rows oY) [])
      = rlist_sum
          (Np.zip_with
             (sampled_chi2_kernel si (AdditiveChi2Sampler.sample_steps s))
             (nth i (Np.rows X) []) (nth i' (Np.rows Y) [])).
Proof.
  intros Hsi Hpos HX HY Hcols HpX HpY.
  destruct (additive_transform_rows s X si Hsi HX HpX) as (oX & HrX & _ & HX').
  destruct (additive_transform_rows s Y si Hsi HY HpY) as (oY & HrY & _ & HY').
  exists oX, oY. split; [exact HrX|]. split; [exact HrY|].
  intros i i' Hi Hi'. rewrite HX', HY' by assumption.
  apply component_major_inner.
  - exact Hpos.
  - rewrite !wf_row_length by assumption. exact Hcols.
  - now apply row_positive.
  - now apply row_positive.
Qed.

Lemma Y_1_2_positive : Forall (Forall (fun x => 0 < x)) (Np.rows Y_1_2).
Proof. repeat constructor; lra. Qed.

Lemma Y_1_2_wf : Np.wf Y_1_2.
Proof. split; [reflexivity|]. repeat constructor. Qed.

Lemma half_positive : 0 < 5 / 10.
Proof. lra. Qed.

Lemma additive_transform_inner_product_witness :
  exists oX oY,
    AdditiveChi2Sampler.transform X_1_2
      (AdditiveChi2Sampler.mk 2 (Some (5 / 10)))
    = (Ok oX, AdditiveChi2Sampler.mk 2 (Some (5 / 10))) /\
    AdditiveChi2Sampler.transform Y_1_2
      (AdditiveChi2Sampler.mk 2 (Some (5 / 10)))
    = (Ok oY, AdditiveChi2Sampler.mk 2 (Some (5 / 10))) /\
    Np.inner (nth 0 (Np.rows oX) []) (nth 0 (Np.rows oY) [])
    = rlist_sum (Np.zip_with (sampled_chi2_kernel (5 / 10) 2) [1; 2] [3; 4]).
Proof.
  destruct (additive_transform_inner_product
              (AdditiveChi2Sampler.mk 2 (Some (5 / 10))) X_1_2 Y_1_2 (5 / 10)
              eq_refl half_positive X_1_2_wf Y_1_2_wf eq_refl
              X_1_2_positive Y_1_2_positive)
    as (oX & oY & HX & HY & Hin).
  exists oX, oY. split; [exact HX|]. split; [exact HY|].
  apply (Hin 0%nat 0%nat); simpl; lia.
Defined.

Lemma zip_with_diag {A B : Type} (F : A -> A -> B) (r : list A) :
  Np.zip_with F r r = List.map (fun x => F x x) r.
Proof. induction r as [|a r IH]; simpl; [reflexivity|]. now rewrite IH. Qed.

Lemma zip_with_of_maps {A A' B B' C : Type} (h : B -> B' -> C) (f : A -> B)
    (g : A' -> B') (l : list A) (l' : list A') :
  Np.zip_with h (List.map f l) (List.map g l')
  = Np.zip_with (fun x y => h (f x) (g y)) l l'.
Proof.
  revert l'. induction l as [|a l IH]; intros [|a' l']; simpl;
    try reflexivity. now rewrite IH.
Qed.

Lemma rlist_sum_zip_scale (k : R) (F : R -> R -> R) (r r' : list R) :
  rlist_sum (Np.zip_with (fun x y => k * F x y) r r')
  = k * rlist_sum (Np.zip_with F r r').
Proof.
  revert r'. unfold rlist_sum.
  induction r as [|a r IH]; intros [|a' r']; simpl; try lra.
  rewrite IH. lra.
Qed.

Lemma rlist_sum_map_ext (P : R -> Prop) (f g : R -> R) (r : list R) :
  Forall P r -> (forall x, P x -> f x = g x) ->
  rlist_sum (List.map f r) = rlist_sum (List.map g r).
Proof.
  intros Hr Hext. unfold rlist_sum.
  induction Hr as [|a r Ha Hr IH]; simpl; [reflexivity|].
  now rewrite (Hext a Ha), IH.
Qed.

Lemma kernel_diagonal (si : R) (steps : Z) (x : R) :
  0 < x ->
  sampled_chi2_kernel si steps x x = si * spectrum_mass si steps * x.
Proof.
  intros Hx. unfold sampled_chi2_kernel, spectrum_mass.
  rewrite sqrt_square by lra.
  replace (ln x - ln x) with 0 by ring.
  erewrite List.map_ext
    by (intros j; rewrite Rmult_0_r, cos_0; reflexivity).
  ring.
Qed.

Lemma kernel_homogeneous (si : R) (steps : Z) (c x y : R) :
  0 < c -> 0 < x -> 0 < y ->
  sampled_chi2_kernel si steps (c * x) (c * y)
  = c * sampled_chi2_kernel si steps x y.
Proof.
  intros Hc Hx Hy. unfold sampled_chi2_kernel.
  replace (c * x * (c * y)) with (c * c * (x * y)) by ring.
  rewrite sqrt_mult by nra. rewrite sqrt_square by lra.
  replace (ln (c * x) - ln (c * y)) with (ln x - ln y)
    by (rewrite !ln_mult by assumption; ring).
  ring.
Qed.

(** X2: the squared Euclidean norm of every row [transform] returns is
    [sample_interval * (1 + 2 * sum_j sech (pi * j * sample_interval))]
    times the sum of the entries of the input row, so rows of equal sum
    are mapped to rows of equal norm. *)
Theorem additive_transform_row_norm
    (s : AdditiveChi2Sampler.t) (X : Np.ndarray) (si : R) :
  AdditiveChi2Sampler.sample_interval s = Some si -> 0 < si ->
  Np.wf X ->
  Forall (Forall (fun x => 0 < x)) (Np.rows X) ->
  exists out,
    AdditiveChi2Sampler.transform X s = (Ok out, s) /\
    forall i, (i < Np.nrows X)%nat ->
      Np.inner (nth i (Np.rows out) []) (nth i (Np.rows out) [])
      = si * spectrum_mass si (AdditiveChi2Sampler.sample_steps s) *
        rlist_sum (nth i (Np.rows X) []).
Proof.
  intros Hsi Hpos HX HpX.
  destruct (additive_transform_rows s X si Hsi HX HpX) as (out & Hr & _ & Hrows).
  exists out. split; [exact Hr|].
  intros i Hi. rewrite Hrows by assumption.
  pose proof (row_positive X i HX HpX Hi) as Hrow.
  rewrite component_major_inner by (try assumption; reflexivity).
  rewrite zip_with_diag.
  rewrite (rlist_sum_map_ext (fun x => 0 < x) _
             (fun x => si * spectrum_mass si
                              (AdditiveChi2Sampler.sample_steps s) * x))
    by (try assumption; intros x Hx; now apply kernel_diagonal).
  rewrite (rlist_sum_scale _ (fun x => x)). now rewrite List.map_id.
Qed.

Lemma additive_transform_row_norm_witness :
  exists out,
    AdditiveChi2Sampler.transform X_1_2
      (AdditiveChi2Sampler.mk 2 (Some (5 / 10)))
    = (Ok out, AdditiveChi2Sampler.mk 2 (Some (5 / 10))) /\
    Np.inner (nth 0 (Np.rows out) []) (nth 0 (Np.rows out) [])
    = 5 / 10 * spectrum_mass (5 / 10) 2 * rlist_sum [1; 2].
Proof.
  destruct (additive_transform_row_norm
              (AdditiveChi2Sampler.mk 2 (Some (5 / 10))) X_1_2 (5 / 10)
              eq_refl half_positive X_1_2_wf X_1_2_positive)
    as (out & Hr & Hn).
  exists out. split; [exact Hr|]. apply (Hn 0%nat). simpl. lia.
Defined.

Lemma scaled_positive (c : R) (X : Np.ndarray) :
  0 < c -> Forall (Forall (fun x => 0 < x)) (Np.rows X) ->
  Forall (Forall (fun x => 0 < x)) (Np.rows (Np.map (fun v => c * v) X)).
Proof.
  intros Hc Hpos. cbn [Np.map Np.rows].
  apply Forall_forall. intros r Hr. apply in_map_iff in Hr.
  destruct Hr as (r0 & <- & Hr0). rewrite Forall_forall in Hpos.
  specialize (Hpos r0 Hr0). apply Forall_forall. intros v Hv.
  apply in_map_iff in Hv. destruct Hv as (x & <- & Hx).
  rewrite Forall_forall in Hpos. specialize (Hpos x Hx). nra.
Qed.

(** X3: multiplying both inputs by one positive factor [c] multiplies the
    inner product of their transformed rows by [c]. *)
Theorem additive_transform_homogeneous
    (s : AdditiveChi2Sampler.t) (X Y : Np.ndarray) (si c : R) :
  AdditiveChi2Sampler.sample_interval s = Some si -> 0 < si -> 0 < c ->
  Np.wf X -> Np.wf Y -> Np.ncols X = Np.ncols Y ->
  Forall (Forall (fun x => 0 < x)) (Np.rows X) ->
  Forall (Forall (fun x => 0 < x)) (Np.rows Y) ->
  exists oX oY oX' oY',
    AdditiveChi2Sampler.transform X s = (Ok oX, s) /\
    AdditiveChi2Sampler.transform Y s = (Ok oY, s) /\
    AdditiveChi2Sampler.transform (Np.map (fun v => c * v) X) s
    = (Ok oX', s) /\
    AdditiveChi2Sampler.transform (Np.map (fun v => c * v) Y) s
    = (Ok oY', s) /\
    forall i i', (i < Np.nrows X)%nat -> (i' < Np.nrows Y)%nat ->
      Np.inner (nth i (Np.rows oX') []) (nth i' (Np.rows oY') [])
      = c * Np.inner (nth i (Np.rows oX) []) (nth i' (Np.rows oY) []).
Proof.
  intros Hsi Hpos Hc HX HY Hcols HpX HpY.
  set (sc := fun v => c * v).
  destruct (additive_transform_rows s X si Hsi HX HpX) as (oX & HrX & _ & HX').
  destruct (additive_transform_rows s Y si Hsi HY HpY) as (oY & HrY & _ & HY').
  destruct (additive_transform_rows s (Np.map sc X) si Hsi (map_wf sc X HX)
              (scaled_positive c X Hc HpX)) as (oX' & HrX' & _ & HX'').
  destruct (additive_transform_rows s (Np.map sc Y) si Hsi (map_wf sc Y HY)
              (scaled_positive c Y Hc HpY)) as (oY' & HrY' & _ & HY'').
  exists oX, oY, oX', oY'. repeat (split; [assumption|]).
  intros i i' Hi Hi'.
  rewrite HX', HY', HX'', HY'' by assumption.
  cbn [Np.map Np.rows].
  rewrite (nth_map_in_range (List.map sc) (Np.rows X) i [] [])
    by (destruct HX; lia).
  rewrite (nth_map_in_range (List.map sc) (Np.rows Y) i' [] [])
    by (destruct HY; lia).
  pose proof (row_positive X i HX HpX Hi) as Hr.
  pose proof (row_positive Y i' HY HpY Hi') as Hr'.
  assert (Hlen : length (nth i (Np.rows X) []) = length (nth i' (Np.rows Y) []))
    by (rewrite !wf_row_length by assumption; exact Hcols).
  assert (Hsr : Forall (fun x => 0 < x) (List.map sc (nth i (Np.rows X) []))).
  { apply Forall_forall. intros v Hv. apply in_map_iff in Hv.
    destruct Hv as (x & <- & Hx). rewrite Forall_forall in Hr.
    specialize (Hr x Hx). unfold sc. nra. }
  assert (Hsr' : Forall (fun x => 0 < x)
                   (List.map sc (nth i' (Np.rows Y) []))).
  { apply Forall_forall. intros v Hv. apply in_map_iff in Hv.
    destruct Hv as (x & <- & Hx). rewrite Forall_forall in Hr'.
    specialize (Hr' x Hx). unfold sc. nra. }
  rewrite (component_major_inner si _ _ _ Hpos Hlen Hr Hr').
  rewrite (component_major_inner si _ (List.map sc _) (List.map sc _) Hpos)
    by (try assumption; now rewrite !length_map).
  subst sc. cbv beta.
  rewrite zip_with_of_maps, <- rlist_sum_zip_scale.
  apply (rlist_sum_zip_ext (fun x => 0 < x) (fun x => 0 < x));
    try assumption.
  intros x y Hx Hy. now apply kernel_homogeneous.
Qed.

Lemma two_positive : 0 < 2.
Proof. lra. Qed.

Lemma additive_transform_homogeneous_witness :
  exists oX oY oX' oY',
    AdditiveChi2Sampler.transform X_1_2
      (AdditiveChi2Sampler.mk 2 (Some (5 / 10)))
    = (Ok oX, AdditiveChi2Sampler.mk 2 (Some (5 / 10))) /\
    AdditiveChi2Sampler.transform Y_1_2
      (AdditiveChi2Sampler.mk 2 (Some (5 / 10)))
    = (Ok oY, AdditiveChi2Sampler.mk 2 (Some (5 / 10))) /\
    AdditiveChi2Sampler.transform (Np.map (fun v => 2 * v) X_1_2)
      (AdditiveChi2Sampler.mk 2 (Some (5 / 10)))
    = (Ok oX', AdditiveChi2Sampler.mk 2 (Some (5 / 10))) /\
    AdditiveChi2Sampler.transform (Np.map (fun v => 2 * v) Y_1_2)
      (AdditiveChi2Sampler.mk 2 (Some (5 / 10)))
    = (Ok oY', AdditiveChi2Sampler.mk 2 (Some (5 / 10))) /\
    Np.inner (nth 0 (Np.rows oX') []) (nth 0 (Np.rows oY') [])
    = 2 * Np.inner (nth 0 (Np.rows oX) []) (nth 0 (Np.rows oY) []).
Proof.
  destruct (additive_transform_homogeneous
              (AdditiveChi2Sampler.mk 2 (Some (5 / 10))) X_1_2 Y_1_2
              (5 / 10) 2 eq_refl half_positive two_positive
              X_1_2_wf Y_1_2_wf eq_refl X_1_2_positive Y_1_2_positive)
    as (oX & oY & oX' & oY' & H1 & H2 & H3 & H4 & Hin).
  exists oX, oY, oX', oY'. repeat (split; [assumption|]).
  apply (Hin 0%nat 0%nat); simpl; lia.
Defined.

(** X4: with [sample_steps] at most 1 (zero and negative values included)
    the loop body never runs and [transform] returns only the zeroth
    block: an array of the shape of [X] whose entries are
    [sqrt (x * sample_interval)]. *)
Theorem additive_transform_few_steps
    (s : AdditiveChi2Sampler.t) (X : Np.ndarray) (si : R) :
  (AdditiveChi2Sampler.sample_steps s <= 1)%Z ->
  AdditiveChi2Sampler.sample_interval s = Some si ->
  Np.wf X ->
  Forall (Forall (fun x => 0 < x)) (Np.rows X) ->
  AdditiveChi2Sampler.transform X s
  = (Ok (Np.mk_array (Np.nrows X) (Np.ncols X)
           (List.map (List.map (fun x => sqrt (x * si))) (Np.rows X))),
     s).
Proof.
  intros Hsteps Hsi [Hlen _] Hpos.
  rewrite (additive_transform_value s X si Hlen
             (AdditiveChi2Facts.positive_scan X Hpos) Hsi).
  do 2 f_equal. f_equal.
  - replace (Z.to_nat (AdditiveChi2Sampler.sample_steps s - 1)) with 0%nat
      by lia. lia.
  - apply List.map_ext. intros r. unfold Chi2Spec.component_major_row.
    rewrite xrange_empty by lia. simpl. now rewrite app_nil_r.
Qed.

Lemma additive_transform_few_steps_witness :
  AdditiveChi2Sampler.transform X_1_2
    (AdditiveChi2Sampler.mk (-3) (Some (5 / 10)))
  = (Ok (Np.mk_array 1 2 [[sqrt (1 * (5 / 10)); sqrt (2 * (5 / 10))]]),
     AdditiveChi2Sampler.mk (-3) (Some (5 / 10))).
Proof.
  apply (additive_transform_few_steps
           (AdditiveChi2Sampler.mk (-3) (Some (5 / 10))) X_1_2 (5 / 10)).
  - simpl. lia.
  - reflexivity.
  - exact X_1_2_wf.
  - exact X_1_2_positive.
Defined.



(** ** Composing [fit] and [transform] of the Monte Carlo maps *)

Lemma rbf_fit_returns_self {G : Type} `{RandomState G} (s : RBFSampler.t G)
    (X : Np.ndarray) :
  RBFSampler.fit X s
  = (Ok (snd (RBFSampler.fit X s)), snd (RBFSampler.fit X s)) /\
  RBFSampler.n_components (snd (RBFSampler.fit X s))
  = RBFSampler.n_components s /\
  RBFSampler.gamma (snd (RBFSampler.fit X s)) = RBFSampler.gamma s.
Proof. rewrite rbf_fit_value. cbn [snd]. repeat split. Qed.

Lemma skewed_fit_returns_self {G : Type} `{RandomState G}
    (s : SkewedChi2Sampler.t G) (X : Np.ndarray) :
  SkewedChi2Sampler.fit X s
  = (Ok (snd (SkewedChi2Sampler.fit X s)), snd (SkewedChi2Sampler.fit X s)) /\
  SkewedChi2Sampler.n_components (snd (SkewedChi2Sampler.fit X s))
  = SkewedChi2Sampler.n_components s /\
  SkewedChi2Sampler.skewedness (snd (SkewedChi2Sampler.fit X s))
  = SkewedChi2Sampler.skewedness s.
Proof. rewrite skewed_fit_value. cbn [snd]. repeat split. Qed.

(** X6: after [fit] on an array [X0], [transform] of any array with as
    many columns as [X0] succeeds, leaves the fitted instance as it is and
    returns an array with the rows of its input and [n_components]
    columns; [gamma] and [n_components] are the ones the instance was
    built with. *)
Theorem rbf_fit_then_transform
    {G : Type} `{RandomStateLaws G} (s : RBFSampler.t G)
    (X0 X : Np.ndarray) :
  Np.wf X -> Np.ncols X = Np.ncols X0 ->
  exists s1 out,
    RBFSampler.fit X0 s = (Ok s1, s1) /\
    RBFSampler.gamma s1 = RBFSampler.gamma s /\
    RBFSampler.n_components s1 = RBFSampler.n_components s /\
    RBFSampler.transform X s1 = (Ok out, s1) /\
    Np.wf out /\ Np.nrows out = Np.nrows X /\
    Np.ncols out = RBFSampler.n_components s.
Proof.
  intros HX Hcols.
  destruct (rbf_fit_returns_self s X0) as (Hfit & Hn & Hg).
  destruct (rbf_fit_fitted s X0) as (W & b & Hfitted).
  set (s1 := snd (RBFSampler.fit X0 s)) in *.
  rewrite <- Hcols in Hfitted.
  exists s1. eexists.
  split; [exact Hfit|]. split; [exact Hg|]. split; [exact Hn|].
  split; [exact (rbf_transform_value s1 X W b Hfitted)|].
  destruct Hfitted as (_ & _ & HW & Hr & Hc & Hlen).
  destruct (projection_entries (RBFSampler.n_components s1) X W b)
    as (Hwf & Hnr & Hnc & _); try assumption; try lia.
  split; [exact Hwf|]. split; [exact Hnr|].
  rewrite <- Hn, <- Hc. exact Hnc.
Qed.

Lemma rbf_fit_then_transform_witness :
  exists s1 out,
    RBFSampler.fit X_1_2 (RBFSampler.init 4 3 (RsSeed 5)) = (Ok s1, s1) /\
    RBFSampler.transform Y_1_2 s1 = (Ok out, s1) /\
    Np.nrows out = 1%nat /\ Np.ncols out = 3%nat.
Proof.
  destruct (@rbf_fit_then_transform nat counter_rng counter_rng_laws
              (RBFSampler.init 4 3 (RsSeed 5)) X_1_2 Y_1_2 Y_1_2_wf eq_refl)
    as (s1 & out & Hfit & _ & _ & Hrun & _ & Hr & Hc).
  exists s1, out. repeat (split; [assumption|]). exact Hc.
Defined.

(** X7: after [fit] on an array [X0], [transform] of any non-negative
    array with as many columns as [X0] succeeds, leaves the fitted instance
    as it is and returns an array with the rows of its input and
    [n_components] columns; the offsets [fit] stored are [n_components]
    values in [0, 2 pi), and [skewedness] and [n_components] are the ones
    the instance was built with. *)
Theorem skewed_fit_then_transform
    {G : Type} `{RandomStateLaws G} (s : SkewedChi2Sampler.t G)
    (X0 X : Np.ndarray) :
  Np.wf X -> Np.ncols X = Np.ncols X0 ->
  Forall (Forall (fun x => 0 <= x)) (Np.rows X) ->
  exists s1 b out,
    SkewedChi2Sampler.fit X0 s = (Ok s1, s1) /\
    SkewedChi2Sampler.skewedness s1 = SkewedChi2Sampler.skewedness s /\
    SkewedChi2Sampler.n_components s1 = SkewedChi2Sampler.n_components s /\
    SkewedChi2Sampler.random_offset_ s1 = Some b /\
    length b = SkewedChi2Sampler.n_components s /\
    Forall (fun u => 0 <= u < 2 * PI) b /\
    SkewedChi2Sampler.transform X s1 = (Ok out, s1) /\
    Np.wf out /\ Np.nrows out = Np.nrows X /\
    Np.ncols out = SkewedChi2Sampler.n_components s.
Proof.
  intros HX Hcols Hpos.
  destruct (skewed_fit_returns_self s X0) as (Hfit & Hn & Hg).
  destruct (skewed_fit_fitted s X0) as (W & b & Hfitted).
  assert (Hb : SkewedChi2Sampler.random_offset_ (snd (SkewedChi2Sampler.fit X0 s))
               = Some b -> Forall (fun u => 0 <= u < 2 * PI) b).
  { rewrite skewed_fit_value. cbn [snd SkewedChi2Sampler.random_offset_].
    intros [= <-]. apply uniform_range. pose proof PI_RGT_0. lra. }
  set (s1 := snd (SkewedChi2Sampler.fit X0 s)) in *.
  rewrite <- Hcols in Hfitted.
  exists s1, b. eexists.
  split; [exact Hfit|]. split; [exact Hg|]. split; [exact Hn|].
  pose proof Hfitted as (_ & Hoff & HW & Hr & Hc & Hlen).
  split; [exact Hoff|]. split; [now rewrite <- Hn|].
  split; [exact (Hb Hoff)|].
  split.
  { exact (skewed_transform_value s1 X W b (nonnegative_scan X Hpos) Hfitted). }
  destruct (projection_entries (SkewedChi2Sampler.n_components s1)
              (Np.map (fun x => ln (x + SkewedChi2Sampler.skewedness s1)) X)
              W b)
    as (Hwf & Hnr & Hnc & _);
    try assumption; try (cbn [Np.map Np.ncols]; lia).
  { now apply map_wf. }
  split; [exact Hwf|]. split; [exact Hnr|].
  rewrite <- Hn, <- Hc. exact Hnc.
Qed.

Lemma skewed_fit_then_transform_witness :
  exists s1 out,
    SkewedChi2Sampler.fit X_1_2 (SkewedChi2Sampler.init 1 3 RsNone)
    = (Ok s1, s1) /\
    SkewedChi2Sampler.transform Y_1_2 s1 = (Ok out, s1) /\
    Np.nrows out = 1%nat /\ Np.ncols out = 3%nat.
Proof.
  assert (HY : Forall (Forall (fun x => 0 <= x)) (Np.rows Y_1_2))
    by (repeat constructor; lra).
  destruct (@skewed_fit_then_transform nat counter_rng counter_rng_laws
              (SkewedChi2Sampler.init 1 3 RsNone) X_1_2 Y_1_2 Y_1_2_wf
              eq_refl HY)
    as (s1 & b & out & Hfit & _ & _ & _ & _ & _ & Hrun & _ & Hr & Hc).
  exists s1, out. repeat (split; [assumption|]). exact Hc.
Defined.

(** X8: a second [fit] replaces the fitted state entirely and does not
    start the generator afresh: [fit] stores the advanced generator in
    [random_state], and fitting again gives what fitting a newly built
    instance holding that generator gives, whatever weights and offsets
    were stored before.  The training array enters [fit] only through its
    number of columns. *)
Theorem monte_carlo_refit :
  (forall (G : Type) (RS : RandomState G) (s : RBFSampler.t G)
          (X X' X'' : Np.ndarray),
      let n := RBFSampler.n_components s in
      let g0 := check_random_state (RBFSampler.random_state s) in
      let g1 := snd (uniform 0 (2 * PI) n (snd (normal (Np.ncols X) n g0))) in
      RBFSampler.random_state (snd (RBFSampler.fit X s)) = RsInstance g1 /\
      RBFSampler.fit X' (snd (RBFSampler.fit X s))
      = RBFSampler.fit X' (RBFSampler.init (RBFSampler.gamma s) n
                             (RsInstance g1)) /\
      (Np.ncols X' = Np.ncols X'' ->
       RBFSampler.fit X' s = RBFSampler.fit X'' s)) /\
  (forall (G : Type) (RS : RandomState G) (s : SkewedChi2Sampler.t G)
          (X X' X'' : Np.ndarray),
      let n := SkewedChi2Sampler.n_components s in
      let g0 := check_random_state (SkewedChi2Sampler.random_state s) in
      let g1 :=
        snd (uniform 0 (2 * PI) n (snd (uniform2 0 1 (Np.ncols X) n g0))) in
      SkewedChi2Sampler.random_state (snd (SkewedChi2Sampler.fit X s))
      = RsInstance g1 /\
      SkewedChi2Sampler.fit X' (snd (SkewedChi2Sampler.fit X s))
      = SkewedChi2Sampler.fit X'
          (SkewedChi2Sampler.init (SkewedChi2Sampler.skewedness s) n
             (RsInstance g1)) /\
      (Np.ncols X' = Np.ncols X'' ->
       SkewedChi2Sampler.fit X' s = SkewedChi2Sampler.fit X'' s)).
Proof.
  split; intros G RS s X X' X'' n g0 g1.
  - split; [|split].
    + rewrite rbf_fit_value. reflexivity.
    + rewrite (rbf_fit_value s X). cbn [snd].
      rewrite !rbf_fit_value. reflexivity.
    + intros Hcols. rewrite !rbf_fit_value, Hcols. reflexivity.
  - split; [|split].
    + rewrite skewed_fit_value. reflexivity.
    + rewrite (skewed_fit_value s X). cbn [snd].
      rewrite !skewed_fit_value. reflexivity.
    + intros Hcols. rewrite !skewed_fit_value, Hcols. reflexivity.
Qed.

Lemma monte_carlo_refit_witness :
  RBFSampler.fit X_1_2 (RBFSampler.init 4 3 (RsSeed 5))
  = RBFSampler.fit Y_1_2 (RBFSampler.init 4 3 (RsSeed 5)) /\
  SkewedChi2Sampler.fit X_1_2 (SkewedChi2Sampler.init 1 3 RsNone)
  = SkewedChi2Sampler.fit Y_1_2 (SkewedChi2Sampler.init 1 3 RsNone).
Proof.
  split.
  - apply (proj1 monte_carlo_refit nat counter_rng
             (RBFSampler.init 4 3 (RsSeed 5)) X_1_1 X_1_2 Y_1_2).
    reflexivity.
  - apply (proj2 monte_carlo_refit nat counter_rng
             (SkewedChi2Sampler.init 1 3 RsNone) X_1_1 X_1_2 Y_1_2).
    reflexivity.
Defined.

(** X9: [transform] on an instance that was never fitted fails whatever
    the input is.  For RBFSampler the missing [random_weights_] is
    reported; for SkewedChi2Sampler the scan of the input comes first, so a
    negative entry is reported as an invalid input and only an input
    without negative entries gets as far as the missing attribute.  The
    instance is left as it was. *)
Theorem unfitted_transform_fails :
  (forall (G : Type) (gamma : R) (n : nat) (rs : random_state_arg G)
          (X : Np.ndarray),
      RBFSampler.transform X (RBFSampler.init gamma n rs)
      = (Raise (AttributeError "random_weights_"),
         RBFSampler.init gamma n rs)) /\
  (forall (G : Type) (skewedness : R) (n : nat) (rs : random_state_arg G)
          (X : Np.ndarray),
      ((exists row x, In row (Np.rows X) /\ In x row /\ x < 0) ->
       SkewedChi2Sampler.transform X (SkewedChi2Sampler.init skewedness n rs)
       = (Raise (ValueError "X may not contain entries smaller than zero."),
          SkewedChi2Sampler.init skewedness n rs)) /\
      (Forall (Forall (fun x => 0 <= x)) (Np.rows X) ->
       SkewedChi2Sampler.transform X (SkewedChi2Sampler.init skewedness n rs)
       = (Raise (AttributeError "random_weights_"),
          SkewedChi2Sampler.init skewedness n rs))).
Proof.
  split.
  - intros. reflexivity.
  - intros G sk n rs X. split.
    + intros (row & x & Hrow & Hx & Hlt).
      unfold SkewedChi2Sampler.transform.
      replace (Np.any (fun x => Rltb x 0) X) with true; [reflexivity|].
      symmetry. apply any_true. exists row, x.
      repeat split; try assumption. now apply Rltb_true.
    + intros Hpos. unfold SkewedChi2Sampler.transform.
      now rewrite (nonnegative_scan X Hpos).
Qed.

Lemma unfitted_transform_fails_witness :
  SkewedChi2Sampler.transform X_neg
    (SkewedChi2Sampler.init 1 3 (@RsNone nat))
  = (Raise (ValueError "X may not contain entries smaller than zero."),
     SkewedChi2Sampler.init 1 3 RsNone) /\
  SkewedChi2Sampler.transform X_1_2
    (SkewedChi2Sampler.init 1 3 (@RsNone nat))
  = (Raise (AttributeError "random_weights_"),
     SkewedChi2Sampler.init 1 3 RsNone).
Proof.
  split.
  - apply (proj1 (proj2 unfitted_transform_fails nat 1 3%nat RsNone X_neg)).
    exists [1; -1], (-1). simpl. repeat split; auto. lra.
  - apply (proj2 (proj2 unfitted_transform_fails nat 1 3%nat RsNone X_1_2)).
    exact X_1_2_nonnegative.
Defined.

(** ** Row-wise batching *)

Lemma any_stack (p : R -> bool) (X Y : Np.ndarray) :
  Np.any p (stack_rows X Y) = Np.any p X || Np.any p Y.
Proof. unfold Np.any, stack_rows. cbn [Np.rows]. apply existsb_app. Qed.

(** X10: every [transform] works row by row: transforming two arrays of
    one width stacked on top of each other gives the two transformed
    arrays stacked on top of each other. *)
Theorem transform_stacked_rows :
  (forall (G : Type) (s : RBFSampler.t G) (X Y W : Np.ndarray) (b : list R),
      rbf_fitted s (Np.ncols X) W b -> Np.ncols Y = Np.ncols X ->
      exists oX oY,
        RBFSampler.transform X s = (Ok oX, s) /\
        RBFSampler.transform Y s = (Ok oY, s) /\
        RBFSampler.transform (stack_rows X Y) s = (Ok (stack_rows oX oY), s)) /\
  (forall (G : Type) (s : SkewedChi2Sampler.t G) (X Y W : Np.ndarray)
          (b : list R),
      skewed_fitted s (Np.ncols X) W b -> Np.ncols Y = Np.ncols X ->
      Forall (Forall (fun x => 0 <= x)) (Np.rows X) ->
      Forall (Forall (fun x => 0 <= x)) (Np.rows Y) ->
      exists oX oY,
        SkewedChi2Sampler.transform X s = (Ok oX, s) /\
        SkewedChi2Sampler.transform Y s = (Ok oY, s) /\
        SkewedChi2Sampler.transform (stack_rows X Y) s
        = (Ok (stack_rows oX oY), s)) /\
  (forall (s : AdditiveChi2Sampler.t) (X Y : Np.ndarray) (si : R),
      AdditiveChi2Sampler.sample_interval s = Some si ->
      Np.wf X -> Np.wf Y -> Np.ncols Y = Np.ncols X ->
      Forall (Forall (fun x => 0 < x)) (Np.rows X) ->
      Forall (Forall (fun x => 0 < x)) (Np.rows Y) ->
      exists oX oY,
        AdditiveChi2Sampler.transform X s = (Ok oX, s) /\
        AdditiveChi2Sampler.transform Y s = (Ok oY, s) /\
        AdditiveChi2Sampler.transform (stack_rows X Y) s
        = (Ok (stack_rows oX oY), s)).
Proof.
  split; [|split].
  - intros G s X Y W b Hfit Hcols.
    assert (HfitY : rbf_fitted s (Np.ncols Y) W b) by now rewrite Hcols.
    do 2 eexists.
    split; [exact (rbf_transform_value s X W b Hfit)|].
    split; [exact (rbf_transform_value s Y W b HfitY)|].
    rewrite (rbf_transform_value s (stack_rows X Y) W b Hfit).
    unfold stack_rows, Np.map, Np.matmul. cbn [Np.rows Np.nrows Np.ncols].
    now rewrite !map_app.
  - intros G s X Y W b Hfit Hcols HpX HpY.
    assert (HfitY : skewed_fitted s (Np.ncols Y) W b) by now rewrite Hcols.
    pose proof (nonnegative_scan X HpX) as HsX.
    pose proof (nonnegative_scan Y HpY) as HsY.
    assert (HsXY : Np.any (fun x => Rltb x 0) (stack_rows X Y) = false)
      by now rewrite any_stack, HsX, HsY.
    do 2 eexists.
    split; [exact (skewed_transform_value s X W b HsX Hfit)|].
    split; [exact (skewed_transform_value s Y W b HsY HfitY)|].
    rewrite (skewed_transform_value s (stack_rows X Y) W b HsXY Hfit).
    unfold stack_rows, Np.map, Np.matmul. cbn [Np.rows Np.nrows Np.ncols].
    now rewrite !map_app.
  - intros s X Y si Hsi [HlX _] [HlY _] Hcols HpX HpY.
    pose proof (AdditiveChi2Facts.positive_scan X HpX) as HsX.
    pose proof (AdditiveChi2Facts.positive_scan Y HpY) as HsY.
    assert (HsXY : Np.any (fun x => Rleb x 0) (stack_rows X Y) = false)
      by now rewrite any_stack, HsX, HsY.
    do 2 eexists.
    split; [exact (additive_transform_value s X si HlX HsX Hsi)|].
    split; [exact (additive_transform_value s Y si HlY HsY Hsi)|].
    rewrite (additive_transform_value s (stack_rows X Y) si); try assumption.
    + unfold stack_rows. cbn [Np.rows Np.nrows Np.ncols].
      now rewrite !map_app.
    + unfold stack_rows. cbn [Np.rows Np.nrows]. rewrite length_app. lia.
Qed.

Lemma transform_stacked_rows_witness :
  (exists oX oY,
      RBFSampler.transform (stack_rows X_1_2 Y_1_2) rbf_example
      = (Ok (stack_rows oX oY), rbf_example)) /\
  (exists oX oY,
      SkewedChi2Sampler.transform (stack_rows X_1_2 Y_1_2) skewed_example
      = (Ok (stack_rows oX oY), skewed_example)) /\
  (exists oX oY,
      AdditiveChi2Sampler.transform (stack_rows X_1_2 Y_1_2)
        (AdditiveChi2Sampler.mk 2 (Some (5 / 10)))
      = (Ok (stack_rows oX oY), AdditiveChi2Sampler.mk 2 (Some (5 / 10)))).
Proof.
  assert (HY : Forall (Forall (fun x => 0 <= x)) (Np.rows Y_1_2))
    by (repeat constructor; lra).
  split; [|split].
  - destruct (proj1 transform_stacked_rows nat rbf_example X_1_2 Y_1_2
                W_2_2 [0; 0] rbf_example_fitted eq_refl)
      as (oX & oY & _ & _ & Hrun).
    now exists oX, oY.
  - destruct (proj1 (proj2 transform_stacked_rows) nat skewed_example
                X_1_2 Y_1_2 W_2_2 [0; 0] skewed_example_fitted eq_refl
                X_1_2_nonnegative HY)
      as (oX & oY & _ & _ & Hrun).
    now exists oX, oY.
  - destruct (proj2 (proj2 transform_stacked_rows)
                (AdditiveChi2Sampler.mk 2 (Some (5 / 10))) X_1_2 Y_1_2
                (5 / 10) eq_refl X_1_2_wf Y_1_2_wf eq_refl
                X_1_2_positive Y_1_2_positive)
      as (oX & oY & _ & _ & Hrun).
    now exists oX, oY.
Defined.

(** ** Inner products of transformed rows of the Monte Carlo maps *)

Lemma rsum_scale (k : R) (n : nat) (f : nat -> R) :
  rsum n (fun j => k * f j) = k * rsum n f.
Proof. induction n as [|n IH]; simpl; [lra|]. rewrite IH. lra. Qed.

Lemma rsum_sub_mul (n : nat) (f g w : nat -> R) :
  rsum n (fun k => f k * w k) - rsum n (fun k => g k * w k)
  = rsum n (fun k => (f k - g k) * w k).
Proof. induction n as [|n IH]; simpl; [lra|]. rewrite <- IH. lra. Qed.

Lemma rsum_add_mul (n : nat) (f g w : nat -> R) :
  rsum n (fun k => f k * w k) + rsum n (fun k => g k * w k)
  = rsum n (fun k => (f k + g k) * w k).
Proof. induction n as [|n IH]; simpl; [lra|]. rewrite <- IH. lra. Qed.

Lemma cos_product (a b : R) :
  cos a * cos b = (cos (a - b) + cos (a + b)) / 2.
Proof. rewrite cos_minus, cos_plus. lra. Qed.

Lemma scale_squared (n : nat) :
  (0 < n)%nat ->
  sqrt 2 / sqrt (INR n) * (sqrt 2 / sqrt (INR n)) = 2 / INR n.
Proof.
  intros Hn. assert (Hr : 0 < INR n) by (now apply lt_0_INR).
  pose proof (sqrt_lt_R0 _ Hr) as Hs.
  pose proof (sqrt_sqrt 2) as H2. pose proof (sqrt_sqrt (INR n)) as H3.
  replace (sqrt 2 / sqrt (INR n) * (sqrt 2 / sqrt (INR n)))
    with (sqrt 2 * sqrt 2 / (sqrt (INR n) * sqrt (INR n)))
    by (field; lra).
  rewrite H2, H3 by lra. reflexivity.
Qed.

Lemma scaled_cos_product (n : nat) (p q c : R) :
  (0 < n)%nat ->
  (sqrt 2 / sqrt (INR n) * cos (p + c)) * (sqrt 2 / sqrt (INR n) * cos (q + c))
  = 1 / INR n * (cos (p - q) + cos (p + q + 2 * c)).
Proof.
  intros Hn. assert (Hr : 0 < INR n) by (now apply lt_0_INR).
  transitivity (sqrt 2 / sqrt (INR n) * (sqrt 2 / sqrt (INR n))
                * (cos (p + c) * cos (q + c))); [ring|].
  rewrite scale_squared by exact Hn. rewrite cos_product.
  replace (p + c - (q + c)) with (p - q) by ring.
  replace (p + c + (q + c)) with (p + q + 2 * c) by ring.
  field. lra.
Qed.

(** The inner product of a row of the scaled cosines of [A . W + b] with
    a row of those of [B . W + b]. *)
Lemma projection_inner (n : nat) (A B W : Np.ndarray) (b : list R)
    (i i' : nat) :
  (0 < n)%nat -> Np.wf A -> Np.wf B -> Np.wf W ->
  Np.ncols A = Np.nrows W -> Np.ncols B = Np.nrows W ->
  length b = Np.ncols W -> Np.ncols W = n ->
  (i < Np.nrows A)%nat -> (i' < Np.nrows B)%nat ->
  rsum n (fun j =>
            Np.get (Np.map (scaled_cos n)
                      (Np.mk_array (Np.nrows A) (Np.ncols W)
                         (List.map (fun r => Np.zip_with Rplus r b)
                                   (Np.rows (Np.matmul A W))))) i j *
            Np.get (Np.map (scaled_cos n)
                      (Np.mk_array (Np.nrows B) (Np.ncols W)
                         (List.map (fun r => Np.zip_with Rplus r b)
                                   (Np.rows (Np.matmul B W))))) i' j)
  = 1 / INR n *
    rsum n (fun j =>
              cos (rsum (Np.nrows W)
                     (fun k => (Np.get A i k - Np.get B i' k) * Np.get W k j))
              + cos (rsum (Np.nrows W)
                       (fun k => (Np.get A i k + Np.get B i' k) * Np.get W k j)
                     + 2 * nth j b 0)).
Proof.
  intros Hn HA HB HW HdA HdB Hb Hc Hi Hi'.
  destruct (projection_entries n A W b HA HW HdA Hb) as (_ & _ & _ & HgA).
  destruct (projection_entries n B W b HB HW HdB Hb) as (_ & _ & _ & HgB).
  rewrite <- rsum_scale. apply rsum_ext. intros j Hj.
  rewrite HgA, HgB by lia.
  rewrite scaled_cos_product by exact Hn.
  rewrite HdA, HdB, rsum_sub_mul, rsum_add_mul. reflexivity.
Qed.

(** X11: on a fitted RBFSampler with [n_components > 0], the inner
    product of a transformed row [x] of [X] with a transformed row [y] of
    [Y] is the average over the components [j] of
    [cos (w_j . (x - y)) + cos (w_j . (x + y) + 2 * b_j)], where [w_j] is
    column [j] of [random_weights_] and [b_j] entry [j] of
    [random_offset_]. *)
Theorem rbf_transform_inner_product
    {G : Type} (s : RBFSampler.t G) (X Y W : Np.ndarray) (b : list R) :
  rbf_fitted s (Np.ncols X) W b ->
  Np.wf X -> Np.wf Y -> Np.ncols Y = Np.ncols X ->
  (0 < RBFSampler.n_components s)%nat ->
  exists oX oY,
    RBFSampler.transform X s = (Ok oX, s) /\
    RBFSampler.transform Y s = (Ok oY, s) /\
    forall i i', (i < Np.nrows X)%nat -> (i' < Np.nrows Y)%nat ->
      rsum (RBFSampler.n_components s)
           (fun j => Np.get oX i j * Np.get oY i' j)
      = 1 / INR (RBFSampler.n_components s) *
        rsum (RBFSampler.n_components s)
          (fun j =>
             cos (rsum (Np.ncols X)
                    (fun k => (Np.get X i k - Np.get Y i' k) * Np.get W k j))
             + cos (rsum (Np.ncols X)
                      (fun k => (Np.get X i k + Np.get Y i' k) * Np.get W k j)
                    + 2 * nth j b 0)).
Proof.
  intros Hfit HX HY Hcols Hn.
  assert (HfitY : rbf_fitted s (Np.ncols Y) W b) by now rewrite Hcols.
  do 2 eexists.
  split; [exact (rbf_transform_value s X W b Hfit)|].
  split; [exact (rbf_transform_value s Y W b HfitY)|].
  destruct Hfit as (_ & _ & HW & Hr & Hc & Hlen).
  intros i i' Hi Hi'. rewrite <- Hr.
  apply projection_inner; try assumption; lia.
Qed.

Lemma rbf_transform_inner_product_witness :
  exists oX oY,
    RBFSampler.transform X_1_2 rbf_example = (Ok oX, rbf_example) /\
    RBFSampler.transform Y_1_2 rbf_example = (Ok oY, rbf_example) /\
    rsum 2 (fun j => Np.get oX 0 j * Np.get oY 0 j)
    = 1 / INR 2 *
      rsum 2
        (fun j =>
           cos (rsum 2 (fun k => (Np.get X_1_2 0 k - Np.get Y_1_2 0 k)
                                 * Np.get W_2_2 k j))
           + cos (rsum 2 (fun k => (Np.get X_1_2 0 k + Np.get Y_1_2 0 k)
                                   * Np.get W_2_2 k j)
                  + 2 * nth j [0; 0] 0)).
Proof.
  destruct (rbf_transform_inner_product rbf_example X_1_2 Y_1_2 W_2_2 [0; 0]
              rbf_example_fitted X_1_2_wf Y_1_2_wf eq_refl)
    as (oX & oY & HX & HY & Hin).
  - simpl. lia.
  - exists oX, oY. split; [exact HX|]. split; [exact HY|].
    apply (Hin 0%nat 0%nat); simpl; lia.
Defined.

(** X12: on a fitted SkewedChi2Sampler with [n_components > 0] and
    non-negative inputs, the inner product of a transformed row [x] of [X]
    with a transformed row [y] of [Y] is the average over the components
    [j] of [cos (w_j . (log (x + c) - log (y + c))) +
    cos (w_j . (log (x + c) + log (y + c)) + 2 * b_j)], with [c] the
    skewedness and the logarithm taken entry by entry. *)
Theorem skewed_transform_inner_product
    {G : Type} (s : SkewedChi2Sampler.t G) (X Y W : Np.ndarray)
    (b : list R) :
  skewed_fitted s (Np.ncols X) W b ->
  Np.wf X -> Np.wf Y -> Np.ncols Y = Np.ncols X ->
  Forall (Forall (fun x => 0 <= x)) (Np.rows X) ->
  Forall (Forall (fun x => 0 <= x)) (Np.rows Y) ->
  (0 < SkewedChi2Sampler.n_components s)%nat ->
  exists oX oY,
    SkewedChi2Sampler.transform X s = (Ok oX, s) /\
    SkewedChi2Sampler.transform Y s = (Ok oY, s) /\
    forall i i', (i < Np.nrows X)%nat -> (i' < Np.nrows Y)%nat ->
      rsum (SkewedChi2Sampler.n_components s)
           (fun j => Np.get oX i j * Np.get oY i' j)
      = 1 / INR (SkewedChi2Sampler.n_components s) *
        rsum (SkewedChi2Sampler.n_components s)
          (fun j =>
             cos (rsum (Np.ncols X)
                    (fun k =>
                       (ln (Np.get X i k + SkewedChi2Sampler.skewedness s) -
                        ln (Np.get Y i' k + SkewedChi2Sampler.skewedness s))
                       * Np.get W k j))
             + cos (rsum (Np.ncols X)
                      (fun k =>
                         (ln (Np.get X i k + SkewedChi2Sampler.skewedness s) +
                          ln (Np.get Y i' k + SkewedChi2Sampler.skewedness s))
                         * Np.get W k j)
                    + 2 * nth j b 0)).
Proof.
  intros Hfit HX HY Hcols HpX HpY Hn.
  assert (HfitY : skewed_fitted s (Np.ncols Y) W b) by now rewrite Hcols.
  set (L := fun x => ln (x + SkewedChi2Sampler.skewedness s)).
  do 2 eexists.
  split.
  { exact (skewed_transform_value s X W b (nonnegative_scan X HpX) Hfit). }
  split.
  { exact (skewed_transform_value s Y W b (nonnegative_scan Y HpY) HfitY). }
  destruct Hfit as (_ & _ & HW & Hr & Hc & Hlen).
  intros i i' Hi Hi'. fold L.
  change (Np.nrows X) with (Np.nrows (Np.map L X)).
  change (Np.nrows Y) with (Np.nrows (Np.map L Y)).
  rewrite (projection_inner (SkewedChi2Sampler.n_components s)
             (Np.map L X) (Np.map L Y) W b i i');
    try assumption; try (now apply map_wf);
    try (cbn [Np.map Np.ncols Np.nrows]; lia).
  f_equal. apply rsum_ext. intros j Hj. rewrite Hr.
  f_equal; [|f_equal]; f_equal; apply rsum_ext; intros k Hk;
    rewrite !get_map by (try assumption; lia); reflexivity.
Qed.

Lemma skewed_transform_inner_product_witness :
  exists oX oY,
    SkewedChi2Sampler.transform X_1_2 skewed_example = (Ok oX, skewed_example) /\
    SkewedChi2Sampler.transform Y_1_2 skewed_example = (Ok oY, skewed_example) /\
    rsum 2 (fun j => Np.get oX 0 j * Np.get oY 0 j)
    = 1 / INR 2 *
      rsum 2
        (fun j =>
           cos (rsum 2 (fun k => (ln (Np.get X_1_2 0 k + 1) -
                                  ln (Np.get Y_1_2 0 k + 1))
                                 * Np.get W_2_2 k j))
           + cos (rsum 2 (fun k => (ln (Np.get X_1_2 0 k + 1) +
                                    ln (Np.get Y_1_2 0 k + 1))
                                   * Np.get W_2_2 k j)
                  + 2 * nth j [0; 0] 0)).
Proof.
  assert (HpY : Forall (Forall (fun x => 0 <= x)) (Np.rows Y_1_2))
    by (repeat constructor; lra).
  destruct (skewed_transform_inner_product skewed_example X_1_2 Y_1_2 W_2_2
              [0; 0] skewed_example_fitted X_1_2_wf Y_1_2_wf eq_refl
              X_1_2_nonnegative HpY)
    as (oX & oY & HX & HY & Hin).
  - simpl. lia.
  - exists oX, oY. split; [exact HX|]. split; [exact HY|].
    apply (Hin 0%nat 0%nat); simpl; lia.
Defined.
